(** * randwave~ : random single-period waveform generator

  A shallow embedding of [src/randwave~.c] and the properties of its
  waveform generator ([randwave_generate], [trig_interp]) and of its
  table-playback routine ([randwave_perform]).

  C [int] values are carried as [Z]; C [float] and [double] values are
  IEEE 754 binary32 and binary64 numbers in the [spec_float] model of the
  standard library, so every arithmetic step rounds the way the compiled
  program does.  The C library functions [sin], [tan] and [rand] are not
  part of the repository: they are parameters of the embedding.

  The two adjustment loops of [randwave_perform] need not terminate:
  every loop of the playback routine carries fuel and returns [None]
  when it runs out.  A call of [randwave_generate] that would leave its
  arrays is [Undefined]. *)

From Stdlib Require Import ZArith List Bool Lia QArith.
From Stdlib Require Import Sorting.Sorted Sorting.Permutation FinFun.
From Stdlib Require Import Floats.SpecFloat.
Import ListNotations.

Local Open Scope Z_scope.

(* ================================================================== *)
(** * C integers *)
(* ================================================================== *)

Module CInt.

Definition INT_MAX : Z := 2147483647.
Definition INT_MIN : Z := -2147483648.

(** Two's-complement reduction of a mathematical integer to [int]. *)
Definition wrap (z : Z) : Z := (z + 2147483648) mod 4294967296 - 2147483648.

Definition add (a b : Z) : Z := wrap (a + b).
Definition sub (a b : Z) : Z := wrap (a - b).

End CInt.

(* ================================================================== *)
(** * C floating point: binary32 [float] and binary64 [double] *)
(* ================================================================== *)

Module CFloat.

(** [float] and [double] share the carrier; the operations differ in the
    precision and exponent range they round to.  An expression of type
    [float] is evaluated in binary32 and one of type [double] in binary64
    (FLT_EVAL_METHOD 0, as on x86-64 and arm64), in the default rounding
    mode, to nearest even.  Pd's [t_float] and [t_floatarg] are [float]. *)
Definition float := spec_float.
Definition double := spec_float.

Definition fadd : float -> float -> float := SFadd 24 128.
Definition fsub : float -> float -> float := SFsub 24 128.
Definition fmul : float -> float -> float := SFmul 24 128.
Definition fdiv : float -> float -> float := SFdiv 24 128.

Definition dmul : double -> double -> double := SFmul 53 1024.
Definition ddiv : double -> double -> double := SFdiv 53 1024.

(** [a < b], [a <= b]: false as soon as one side is a NaN. *)
Definition flt (a b : spec_float) : bool := SFltb a b.
Definition fle (a b : spec_float) : bool := SFleb a b.

(** Conversions [(float) i] and [(double) i] of an [int]. *)
Definition of_int (i : Z) : float := binary_normalize 24 128 i 0 false.
Definition double_of_int (i : Z) : double := binary_normalize 53 1024 i 0 false.

(** Change of format: exact from [float] to [double], rounding to nearest
    even from [double] to [float]. *)
Definition convert (prec emax : Z) (x : spec_float) : spec_float :=
  match x with
  | S754_finite s m e => binary_round prec emax s m e
  | _ => x
  end.

Definition to_double : float -> double := convert 53 1024.
Definition to_float : double -> float := convert 24 128.

(** Integer part of a finite value, rounded toward zero. *)
Definition trunc (x : spec_float) : option Z :=
  match x with
  | S754_zero _ => Some 0
  | S754_finite s m e => Some (cond_Zopp s (Z.shiftl (Zpos m) e))
  | _ => None
  end.

(** The conversion [(int) x].  Where C leaves the result undefined (NaN,
    infinities, values outside [int]) the x86 conversion instruction
    yields [INT_MIN]; the embedding does the same. *)
Definition to_int (x : spec_float) : Z :=
  match trunc x with
  | Some z => if (CInt.INT_MIN <=? z) && (z <=? CInt.INT_MAX) then z else CInt.INT_MIN
  | None => CInt.INT_MIN
  end.

(** [ceil] of <math.h>, on doubles. *)
Definition ceil (x : double) : double :=
  match x with
  | S754_finite s m e =>
      binary_normalize 53 1024 (- Z.shiftl (- cond_Zopp s (Zpos m)) e) 0 s
  | _ => x
  end.

(** The constant [M_PI] of <math.h>: the double nearest to pi,
    0x400921FB54442D18. *)
Definition M_PI : double := S754_finite false 7074237752028440 (-51).

(** The exact rational value of a finite number. *)
Definition to_Q (x : spec_float) : option Q :=
  match x with
  | S754_zero _ => Some 0%Q
  | S754_finite s m e =>
      Some match e with
           | Z0 => inject_Z (cond_Zopp s (Zpos m))
           | Zpos p => inject_Z (cond_Zopp s (Zpos m) * 2 ^ Zpos p)
           | Zneg p => Qmake (cond_Zopp s (Zpos m)) (2 ^ p)
           end
  | _ => None
  end.

(** [x] is a number (not a NaN, not an infinity) of the interval [-1, 1]. *)
Definition in_unit_interval (x : spec_float) : Prop :=
  exists q, to_Q x = Some q /\ (-1 <= q <= 1)%Q.

End CFloat.

Import CFloat.

(* ================================================================== *)
(** * Arrays *)
(* ================================================================== *)

(** C arrays are lists indexed by [int]; a write through an index inside the
  array replaces the element.  The embedding never writes outside an array:
  the calls that would are classified as undefined before the write. *)

Fixpoint list_set {A : Type} (l : list A) (n : nat) (v : A) : list A :=
match l, n with
| [], _ => []
| _ :: t, O => v :: t
| h :: t, S n' => h :: list_set t n' v
end.

Definition upd {A : Type} (l : list A) (i : Z) (v : A) : list A :=
if i <? 0 then l else list_set l (Z.to_nat i) v.

Definition get {A : Type} (d : A) (l : list A) (i : Z) : A :=
if i <? 0 then d else nth (Z.to_nat i) l d.

(** A read that may leave the array: [None] stands for the undefined value
  found outside it. *)
Definition read {A : Type} (l : list A) (i : Z) : option A :=
if i <? 0 then None else nth_error l (Z.to_nat i).

(** [for (i = lo; i < lo + n; i++) s = body(i, s);] *)
Fixpoint for_loop {S : Type} (n : nat) (lo : Z) (body : Z -> S -> S) (s : S) : S :=
match n with
| O => s
| Datatypes.S n' => for_loop n' (lo + 1) body (body lo s)
end.

(* ================================================================== *)
(** * The object and its data *)
(* ================================================================== *)

Definition DEFAULT_WAVETABLE_SIZE : Z := 2048.
Definition DEFAULT_NUM_INTERP_POINTS : Z := 4.

Record sample_amplitude_pair : Type := mk_pair {
sample : Z;
amplitude : float
}.

Record t_randwave : Type := mk_randwave {
points : list sample_amplitude_pair;
num_points : Z;
wavetable : list float;
wavetable_size : Z;
phase : Z;
generated : bool
}.

(** Console output of the object: [post] and [pd_error] lines. *)
Inductive message : Type :=
| PostGenerating
| ErrInvalidSampleCount
| ErrInvalidNumPoints
| PostPoint (i : Z) (p : sample_amplitude_pair)
| PostGenerated.

(** The state [randwave_new] leaves behind. *)
Definition randwave_new : t_randwave :=
{| points := []; num_points := 0;
   wavetable := []; wavetable_size := 2048; phase := 0;
   generated := false |}.

(* ================================================================== *)
(** * Playback: [randwave_perform] *)
(* ================================================================== *)

(** [while (i >= size) i -= size;] with a bound on the number of tests. *)
Fixpoint wrap_high (fuel : nat) (size i : Z) : option Z :=
  match fuel with
  | O => None
  | S f => if i >=? size then wrap_high f size (i - size) else Some i
  end.

(** [while (i < 0) i += size;] *)
Fixpoint wrap_low (fuel : nat) (size i : Z) : option Z :=
  match fuel with
  | O => None
  | S f => if i <? 0 then wrap_low f size (i + size) else Some i
  end.

(** The index update of one sample: [i += sample_increment] followed by
    the two adjustment loops. *)
Definition advance (fuel : nat) (size i sample_increment : Z) : option Z :=
  match wrap_high fuel size (CInt.add i sample_increment) with
  | Some i1 => wrap_low fuel size i1
  | None => None
  end.

(** [ceil((float) x->wavetable_size / (float) n)], stored in an [int]. *)
Definition base_sample_increment (size n : Z) : Z :=
  to_int (ceil (to_double (fdiv (of_int size) (of_int n)))).

(** The sample loop [while (n--) { ... }].  Each round emits
    [x->wavetable[i]] and moves [i]; [out] collects the emitted samples,
    most recent first. *)
Fixpoint sample_loop (fuel : nat) (table : list float) (size base : Z)
         (i n : Z) (out : list (option float)) : option (list (option float) * Z) :=
  match fuel with
  | O => None
  | S f =>
      if n =? 0 then Some (rev out, i)
      else
        let sample_increment := 1 * base in
        match advance f size i sample_increment with
        | Some i' => sample_loop f table size base i' (CInt.sub n 1) (read table i :: out)
        | None => None
        end
  end.

(** [randwave_perform]: [frequency] is the signal of the left inlet, [n]
    the block length.  The result is the output block and the object with
    its saved phase; [None] when [fuel] does not suffice. *)
Definition randwave_perform (fuel : nat) (x : t_randwave)
           (frequency : list float) (n : Z) : option (list (option float) * t_randwave) :=
  let i := phase x in
  let base := base_sample_increment (wavetable_size x) n in
  match sample_loop fuel (wavetable x) (wavetable_size x) base i n [] with
  | Some (output, i') =>
      Some (output,
            {| points := points x; num_points := num_points x;
               wavetable := wavetable x; wavetable_size := wavetable_size x;
               phase := i'; generated := generated x |})
  | None => None
  end.

(* ================================================================== *)
(** * Generation: [randwave_generate] and its helpers *)
(* ================================================================== *)

(** [RAND_MAX] of <stdlib.h>, as the C libraries of the platforms Pd runs
    on define it (glibc, the BSDs, macOS). *)
Definition RAND_MAX : Z := 2147483647.

(** What a call either does: it returns, or it runs into behaviour the C
    standard leaves undefined (a write or a sort outside an array, an array
    of negative length). *)
Inductive outcome (A : Type) : Type :=
  | Returns (a : A)
  | Undefined.

Arguments Returns {A} a.
Arguments Undefined {A}.

(** [swap(&arr[a], &arr[b])] *)
Definition swap (arr : list Z) (a b : Z) : list Z :=
  let temp := get 0 arr a in
  upd (upd arr a (get 0 arr b)) b temp.

(** [fill]: [arr[i] = i + 1] for all [i < n]. *)
Definition fill (arr : list Z) (n : Z) : list Z :=
  for_loop (Z.to_nat n) 0 (fun i a => upd a i (i + 1)) arr.

(** [int_qsort_compar]: the difference of the two [int]s. *)
Definition int_qsort_compar (l r : Z) : Z := CInt.sub l r.

(** Modelled from the C standard: [qsort] of <stdlib.h> is not part of the
    repository.  It sorts the first [nmemb] elements of [base] into
    ascending order according to [compar] ([compar a b <= 0] places [a]
    first); an insertion sort stands for the unspecified algorithm. *)
Fixpoint qsort_insert (compar : Z -> Z -> Z) (v : Z) (l : list Z) : list Z :=
  match l with
  | [] => [v]
  | h :: t => if compar v h <=? 0 then v :: h :: t else h :: qsort_insert compar v t
  end.

Definition qsort (base : list Z) (nmemb : Z) (compar : Z -> Z -> Z) : list Z :=
  fold_right (qsort_insert compar) [] (firstn (Z.to_nat nmemb) base)
  ++ skipn (Z.to_nat nmemb) base.

(** [((float) r / (float) RAND_MAX) * 2 - 1] for the value [r] of [rand()]. *)
Definition random_amplitude (r : Z) : float :=
  fsub (fmul (fdiv (of_int r) (of_int RAND_MAX)) (of_int 2)) (of_int 1).

Section Generator.

(** [sin] and [tan] of <math.h>. *)
Variables c_sin c_tan : double -> double.

(** [rand c] is the value the [c]-th call of [rand()] returns; the functions
    below thread the number of calls made so far. *)
Variable rand : nat -> Z.

(** The loop of [shuffle], [i] running from [n - 1] down to [1]. *)
Fixpoint shuffle_loop (i : nat) (arr : list Z) (c : nat) : list Z * nat :=
  match i with
  | O => (arr, c)
  | S i' =>
      let j := Z.rem (rand c) (Z.of_nat i + 1) in
      shuffle_loop i' (swap arr j (Z.of_nat i)) (S c)
  end.

Definition shuffle (arr : list Z) (n : Z) (c : nat) : list Z * nat :=
  shuffle_loop (Z.to_nat (n - 1)) arr c.

Definition trig_cardinal (x : float) (N : Z) : float :=
  if N =? 0 then of_int 1
  else if Z.rem N 2 =? 1 then
    to_float
      (ddiv (c_sin (ddiv (dmul (dmul (double_of_int N) M_PI) (to_double x)) (double_of_int 2)))
            (dmul (double_of_int N)
                  (c_sin (ddiv (dmul M_PI (to_double x)) (double_of_int 2)))))
  else
    to_float
      (ddiv (c_sin (ddiv (dmul (dmul (double_of_int N) M_PI) (to_double x)) (double_of_int 2)))
            (dmul (double_of_int N)
                  (c_tan (ddiv (dmul M_PI (to_double x)) (double_of_int 2))))).

(** [((float) i / (float) wavetable_size) * (2 * M_PI)], stored in a [float]. *)
Definition angle (i size : Z) : float :=
  to_float (dmul (to_double (fdiv (of_int i) (of_int size)))
                 (dmul (double_of_int 2) M_PI)).

(** The inner loop of [trig_interp]: the sum for the table index [i]. *)
Definition interp_sum (size : Z) (pts : list sample_amplitude_pair)
           (num_points : Z) (i : Z) : float :=
  let xi := angle i size in
  for_loop (Z.to_nat num_points) 0
    (fun k sum =>
       let pk := get (mk_pair 0 (S754_zero false)) pts k in
       let xk := angle (sample pk) size in
       fadd sum (fmul (amplitude pk) (trig_cardinal (fsub xi xk) num_points)))
    (of_int 0).

(** Hard limiting of a sum that exceeds 1 or -1. *)
Definition hard_limit (sum : float) : float :=
  if flt (of_int 1) sum then of_int 1
  else if flt sum (of_int (-1)) then of_int (-1)
  else sum.

Definition trig_interp (table : list float) (size : Z)
           (pts : list sample_amplitude_pair) (num_points : Z) : list float :=
  for_loop (Z.to_nat size) 0
    (fun i t => upd t i (hard_limit (interp_sum size pts num_points i)))
    table.

(** The loop that places the interior points:
    [points[i].sample = all_samples[i - 1]] with a fresh random amplitude. *)
Definition place_points (all_samples : list Z) (count : Z)
           (pts : list sample_amplitude_pair) (c : nat)
  : list sample_amplitude_pair * nat :=
  for_loop (Z.to_nat count) 1
    (fun i st =>
       (upd (fst st) i (mk_pair (get 0 all_samples (i - 1)) (random_amplitude (rand (snd st)))),
        S (snd st)))
    (pts, c).

(** The debugging loop: one [post] line per point. *)
Definition post_points (pts : list sample_amplitude_pair) (num_points : Z) : list message :=
  for_loop (Z.to_nat num_points) 0
    (fun i log => log ++ [PostPoint i (get (mk_pair 0 (S754_zero false)) pts i)])
    [].

(** The part of [randwave_generate] that fills the points array (from
    "Creating zero crossings" to the end of the point loop) for a table of
    [size] samples and [np] points; [c] counts the calls of [rand()] made
    so far. *)
Definition control_points (size np : Z) (c : nat)
  : list sample_amplitude_pair * nat :=
  let pts := repeat (mk_pair 0 (S754_zero false)) (Z.to_nat np) in
  let pts := upd pts 0 (mk_pair 0 (of_int 0)) in
  let pts := upd pts (np - 1) (mk_pair (size - 1) (of_int 0)) in
  let all_samples := fill (repeat 0 (Z.to_nat (size - 2))) (size - 2) in
  let '(all_samples, c) := shuffle all_samples (size - 2) c in
  let all_samples := qsort all_samples (np - 2) int_qsort_compar in
  place_points all_samples (np - 2) pts c.

(** [randwave_generate].  The call is [Undefined] when the array of samples
    would have a negative length ([size < 2]), when the points array has no
    room for its two end points or [qsort] gets a negative count
    ([np < 2]), and when [qsort] and the point loop would run past the
    array of samples ([np > size]).  A compiled program may come back from
    such a call; the embedding gives no account of what it leaves
    behind. *)
Definition randwave_generate (x : t_randwave) (c : nat)
           (wavetable_size' num_interp_points : float)
  : outcome (list message * t_randwave * nat) :=
  let log := [PostGenerating] in
  let bad_size := flt wavetable_size' (of_int 0) in
  let log := if bad_size then log ++ [ErrInvalidSampleCount] else log in
  let size := if bad_size then DEFAULT_WAVETABLE_SIZE else to_int wavetable_size' in
  let table := repeat (S754_zero false) (Z.to_nat size) in
  let bad_count :=
    fle num_interp_points (of_int 0)
    || flt (fsub wavetable_size' (of_int 2)) num_interp_points in
  let log := if bad_count then log ++ [ErrInvalidNumPoints] else log in
  let np := if bad_count then DEFAULT_NUM_INTERP_POINTS + 2 else num_points x in
  let np := to_int (fadd num_interp_points (of_int 2)) in
  if (size - 2 <? 0) || (np <? 2) || (size <? np) then Undefined
  else
    let '(pts, c) := control_points size np c in
    let log := log ++ post_points pts np in
    let table := trig_interp table size pts np in
    let log := log ++ [PostGenerated] in
    Returns (log,
             {| points := pts; num_points := np;
                wavetable := table; wavetable_size := size;
                phase := phase x; generated := true |},
             c).

(** [randwave_dsp].  [s_sr] is the sample rate of the outlet signal
    ([sp[1]->s_sr]).  The boolean of the result tells whether [dsp_add] has
    put [randwave_perform] on the DSP chain; the other components are those
    of [randwave_generate]. *)
Definition randwave_dsp (x : t_randwave) (c : nat) (s_sr : float)
  : outcome (list message * t_randwave * nat * bool) :=
  if flt (of_int 0) s_sr then
    if negb (generated x) then
      match randwave_generate x c (of_int DEFAULT_WAVETABLE_SIZE)
                              (of_int DEFAULT_NUM_INTERP_POINTS) with
      | Returns (log, x', c') => Returns (log, x', c', true)
      | Undefined => Undefined
      end
    else Returns ([], x, c, true)
  else Returns ([], x, c, false).

End Generator.

(** ** A small C library for running the embedding

    Odd polynomials stand for [sin] and [tan] near zero, and the linear
    congruential generator of the C standard for [rand].  They serve to
    evaluate the functions above on concrete inputs. *)

Definition odd_poly (c3 c5 : double) (x : double) : double :=
  let x2 := dmul x x in
  dmul x (SFadd 53 1024 (double_of_int 1)
            (dmul x2 (SFadd 53 1024 c3 (dmul x2 c5)))).

Definition sin_poly : double -> double :=
  odd_poly (ddiv (double_of_int (-1)) (double_of_int 6))
           (ddiv (double_of_int 1) (double_of_int 120)).

Definition tan_poly : double -> double :=
  odd_poly (ddiv (double_of_int 1) (double_of_int 3))
           (ddiv (double_of_int 2) (double_of_int 15)).

Fixpoint lcg_state (n : nat) : Z :=
  match n with
  | O => 1
  | S n' => (lcg_state n' * 1103515245 + 12345) mod 4294967296
  end.

Definition lcg_rand (n : nat) : Z := lcg_state (S n) / 2.

(* ================================================================== *)
(** * Vocabulary of the properties *)
(* ================================================================== *)

(** ** Playback *)

(** The phase after [k] samples when every sample moves the index by [inc]
    and reduces it modulo [size]. *)
Definition phase_after (size inc i : Z) (k : nat) : Z :=
  Nat.iter k (fun p => CInt.add p inc mod size) i.


(** Fuel that suffices for the index update of any [int]. *)
Definition advance_fuel : Z := 2147483651.

(** The object [randwave_perform] leaves behind: only the phase moves. *)
Definition with_phase (x : t_randwave) (i : Z) : t_randwave :=
  {| points := points x; num_points := num_points x;
     wavetable := wavetable x; wavetable_size := wavetable_size x;
     phase := i; generated := generated x |}.

(** The block [randwave_perform] writes: the table entries at the
    successive phases. *)
Definition block_of (x : t_randwave) (inc : Z) (n : Z) : list (option float) :=
  map (fun k => read (wavetable x) (phase_after (wavetable_size x) inc (phase x) k))
      (seq 0 (Z.to_nat n)).

(** A small object for running the playback loop: one period of a square
    wave in a table of four samples, the phase on the second sample. *)
Definition example_object : t_randwave :=
  {| points := []; num_points := 0;
     wavetable := [of_int 0; of_int 1; of_int 0; of_int (-1)];
     wavetable_size := 4; phase := 1; generated := true |}.

(** The indices [lo, lo + 1, ..., lo + n - 1] of a loop. *)
Definition indices (lo : Z) (n : nat) : list Z :=
  map (fun k => lo + Z.of_nat k) (seq 0 n).

(** ** Floating point *)

(** The values a difference [x - x] can take, and what the arithmetic of
    [trig_cardinal] makes of them. *)
Definition zero_or_nan (x : spec_float) : Prop :=
  match x with
  | S754_zero _ | S754_nan => True
  | _ => False
  end.

(** [x] is a number of sign [s] whose magnitude is at most [2 ^ k]. *)
Definition bounded_by (k : Z) (s : bool) (x : spec_float) : Prop :=
  match x with
  | S754_zero s' => s' = s
  | S754_finite s' m e => s' = s /\ e <= k /\ Zpos m <= 2 ^ (k - e)
  | _ => False
  end.

(** What a shifted mantissa still owes to the bits shifted out. *)
Definition carry (mrs : shr_record) : Z :=
  if shr_r mrs || shr_s mrs then 1 else 0.

(** The number held by [mrs] at exponent [e], bits shifted out included,
    is at most [2 ^ k]. *)
Definition below_pow2 (k : Z) (mrs : shr_record) (e : Z) : Prop :=
  0 <= shr_m mrs /\ e <= k /\ shr_m mrs + carry mrs <= 2 ^ (k - e).

(** [x] is a zero, a number or an infinity of sign [s]. *)
Definition has_sign (s : bool) (x : spec_float) : Prop :=
  match x with
  | S754_zero s' | S754_infinity s' | S754_finite s' _ _ => s' = s
  | S754_nan => False
  end.

(** ** Generation *)

(** The candidate positions [1 .. n]: all different, all in range. *)
Definition candidates (n : Z) (arr : list Z) : Prop :=
  Z.of_nat (length arr) = n /\ NoDup arr /\ Forall (fun v => 1 <= v <= n) arr.

(** The element a read outside the points array is given. *)
Definition no_point : sample_amplitude_pair := mk_pair 0 (S754_zero false).

(** The array of samples [randwave_generate] draws the interior positions
    from, shuffled, and the number of [rand()] calls made by then. *)
Definition shuffled_samples (rand : nat -> Z) (size : Z) (c : nat) : list Z * nat :=
  shuffle rand (fill (repeat 0 (Z.to_nat (size - 2))) (size - 2)) (size - 2) c.

(** The table size a call settles on, the number of points it settles on,
    and its verdict on the requested number of interior points. *)
Definition effective_size (ws : float) : Z :=
  if flt ws (of_int 0) then DEFAULT_WAVETABLE_SIZE else to_int ws.

Definition effective_points (nip : float) : Z := to_int (fadd nip (of_int 2)).

Definition bad_count (ws nip : float) : bool :=
  fle nip (of_int 0) || flt (fsub ws (of_int 2)) nip.

Definition is_post_point (m : message) : Prop :=
  match m with PostPoint _ _ => True | _ => False end.

(** The object a returning call leaves behind. *)
Definition generated_object (c_sin c_tan : double -> double) (rand : nat -> Z)
           (x : t_randwave) (c : nat) (size np : Z) : t_randwave :=
  let pts := fst (control_points rand size np c) in
  {| points := pts; num_points := np;
     wavetable := trig_interp c_sin c_tan (repeat (S754_zero false) (Z.to_nat size))
                              size pts np;
     wavetable_size := size; phase := phase x; generated := true |}.

(** What the points array of a table of [size] samples with [k] interior
    points has to hold: [k + 2] points, the first [(0, 0)], the last
    [(size - 1, 0)], positions that increase strictly (hence all
    different), interior positions in [[1, size - 2]], amplitudes that are
    numbers of [[-1, 1]]. *)
Definition control_point_set (size k : Z) (pts : list sample_amplitude_pair) : Prop :=
  Z.of_nat (length pts) = k + 2
  /\ get no_point pts 0 = mk_pair 0 (of_int 0)
  /\ get no_point pts (k + 1) = mk_pair (size - 1) (of_int 0)
  /\ (forall i j, 0 <= i -> i < j -> j <= k + 1 ->
      sample (get no_point pts i) < sample (get no_point pts j))
  /\ NoDup (map sample pts)
  /\ (forall i, 1 <= i <= k -> 1 <= sample (get no_point pts i) <= size - 2)
  /\ Forall (fun p => in_unit_interval (amplitude p)) pts.

(** Four points on a table of eight samples. *)
Definition example_points : list sample_amplitude_pair :=
  [mk_pair 0 (of_int 0); mk_pair 2 (of_int 1); mk_pair 5 (of_int (-1));
   mk_pair 7 (of_int 0)].

(* ================================================================== *)
(** * Properties of the playback loop *)
(* ================================================================== *)

Section WrapLoops.

Variable size : Z.
Hypothesis size_pos : 1 <= size.

Lemma wrap_high_steps (f : nat) :
  forall i, i < size * Z.of_nat f ->
  wrap_high (S f) size i = Some (if i <? size then i else i mod size).
Proof.
  induction f as [|f IH]; intros i Hi.
  - simpl. destruct (Z.geb_spec i size) as [Hge|Hlt]; [lia|].
    destruct (Z.ltb_spec i size); [reflexivity | lia].
  - cbn [wrap_high]. destruct (Z.geb_spec i size) as [Hge|Hlt].
    + change (wrap_high (S f) size (i - size) = Some (if i <? size then i else i mod size)).
      rewrite IH by lia.
      destruct (Z.ltb_spec i size); [lia|].
      f_equal. replace (i mod size) with ((i - size) mod size)
        by (replace (i - size) with (i + (-1) * size) by ring; apply Z.mod_add; lia).
      destruct (Z.ltb_spec (i - size) size); [|reflexivity].
      symmetry. apply Z.mod_small. lia.
    + destruct (Z.ltb_spec i size); [reflexivity | lia].
Qed.

Lemma wrap_low_steps (f : nat) :
  forall i, - i <= size * Z.of_nat f ->
  wrap_low (S f) size i = Some (if i <? 0 then i mod size else i).
Proof.
  induction f as [|f IH]; intros i Hi.
  - simpl. destruct (Z.ltb_spec i 0); [lia | reflexivity].
  - cbn [wrap_low]. destruct (Z.ltb_spec i 0) as [Hlt|Hge]; [|reflexivity].
    change (wrap_low (S f) size (i + size) = Some (i mod size)).
    rewrite IH by lia.
    f_equal. replace (i mod size) with ((i + size) mod size)
      by (replace (i + size) with (i + 1 * size) by ring; apply Z.mod_add; lia).
    destruct (Z.ltb_spec (i + size) 0); [reflexivity|].
    symmetry. apply Z.mod_small. lia.
Qed.

End WrapLoops.

Lemma wrap_range (z : Z) : CInt.INT_MIN <= CInt.wrap z <= CInt.INT_MAX.
Proof.
  unfold CInt.wrap, CInt.INT_MIN, CInt.INT_MAX.
  pose proof (Z.mod_pos_bound (z + 2147483648) 4294967296 ltac:(lia)). lia.
Qed.

Lemma wrap_small (z : Z) : CInt.INT_MIN <= z <= CInt.INT_MAX -> CInt.wrap z = z.
Proof.
  unfold CInt.wrap, CInt.INT_MIN, CInt.INT_MAX. intros H.
  rewrite Z.mod_small by lia. lia.
Qed.

(** With a table of at least one sample the index update returns, and what
    it returns is the remainder of the moved index modulo the table size. *)
Lemma advance_returns (size i inc : Z) (fuel : nat) :
  1 <= size ->
  Z.abs (CInt.add i inc) + 1 < Z.of_nat fuel ->
  advance fuel size i inc = Some (CInt.add i inc mod size).
Proof.
  intros Hs Hf. unfold advance.
  destruct fuel as [|f]; [lia|].
  set (j := CInt.add i inc) in *.
  rewrite wrap_high_steps by nia.
  destruct (Z.ltb_spec j size) as [Hlt|Hge].
  - rewrite wrap_low_steps by nia.
    destruct (Z.ltb_spec j 0); [reflexivity|].
    rewrite Z.mod_small by lia. reflexivity.
  - pose proof (Z.mod_pos_bound j size ltac:(lia)).
    rewrite wrap_low_steps by nia.
    destruct (Z.ltb_spec (j mod size) 0); [lia | reflexivity].
Qed.

Lemma advance_fuel_enough (size i inc : Z) (fuel : nat) :
  1 <= size -> advance_fuel <= Z.of_nat fuel ->
  advance fuel size i inc = Some (CInt.add i inc mod size).
Proof.
  intros Hs Hf. apply advance_returns; [assumption|].
  pose proof (wrap_range (i + inc)) as Hr.
  unfold CInt.add, CInt.INT_MIN, CInt.INT_MAX, advance_fuel in *. lia.
Qed.

(** With an empty table neither adjustment loop can leave. *)
Lemma wrap_high_empty (f : nat) : forall i, 0 <= i -> wrap_high f 0 i = None.
Proof.
  induction f as [|f IH]; intros i Hi; [reflexivity|].
  cbn [wrap_high]. destruct (Z.geb_spec i 0); [|lia].
  apply IH. lia.
Qed.

Lemma wrap_low_empty (f : nat) : forall i, i < 0 -> wrap_low f 0 i = None.
Proof.
  induction f as [|f IH]; intros i Hi; [reflexivity|].
  cbn [wrap_low]. destruct (Z.ltb_spec i 0); [|lia].
  apply IH. lia.
Qed.

Lemma advance_empty (fuel : nat) (i inc : Z) : advance fuel 0 i inc = None.
Proof.
  unfold advance. set (j := CInt.add i inc).
  destruct (Z.lt_ge_cases j 0) as [Hneg|Hpos].
  - destruct fuel as [|f]; [reflexivity|].
    cbn [wrap_high]. destruct (Z.geb_spec j 0); [lia|].
    apply wrap_low_empty. assumption.
  - rewrite wrap_high_empty by assumption. reflexivity.
Qed.

Lemma phase_after_succ (size inc i : Z) (k : nat) :
  phase_after size inc i (S k) = phase_after size inc (CInt.add i inc mod size) k.
Proof.
  unfold phase_after.
  exact (Nat.iter_succ_r k Z (fun p => CInt.add p inc mod size) i).
Qed.

Lemma phase_after_range (size inc i : Z) (k : nat) :
  1 <= size -> (1 <= k)%nat -> 0 <= phase_after size inc i k < size.
Proof.
  intros Hs Hk. destruct k as [|k]; [lia|].
  unfold phase_after. cbn [Nat.iter]. apply Z.mod_pos_bound. lia.
Qed.

(** The sample loop returns after [n] rounds: it has emitted the table
    entries at the successive phases and stops on the next phase. *)
Lemma sample_loop_returns (table : list float) (size base : Z) (n : nat) :
  1 <= size -> Z.of_nat n <= CInt.INT_MAX ->
  forall (fuel : nat) (i : Z) (out : list (option float)),
  Z.of_nat n + 1 + advance_fuel <= Z.of_nat fuel ->
  sample_loop fuel table size base i (Z.of_nat n) out
  = Some (rev out ++ map (fun k => read table (phase_after size base i k)) (seq 0 n),
          phase_after size base i n).
Proof.
  intros Hs. induction n as [|n IH]; intros Hn fuel i out Hf.
  - destruct fuel as [|f]; [unfold advance_fuel in Hf; lia|].
    cbn. rewrite app_nil_r. reflexivity.
  - destruct fuel as [|f]; [unfold advance_fuel in Hf; lia|]. cbn [sample_loop].
    destruct (Z.eqb_spec (Z.of_nat (S n)) 0); [lia|].
    rewrite Z.mul_1_l, advance_fuel_enough by (assumption || lia).
    replace (CInt.sub (Z.of_nat (S n)) 1) with (Z.of_nat n)
      by (unfold CInt.sub; rewrite wrap_small; unfold CInt.INT_MIN, CInt.INT_MAX in *; lia).
    rewrite IH by lia.
    rewrite phase_after_succ. f_equal.
    cbn [rev seq map]. rewrite <- app_assoc. cbn [app]. do 2 f_equal.
    rewrite <- seq_shift, map_map. f_equal.
    apply map_ext. intros k. rewrite phase_after_succ. reflexivity.
Qed.

Lemma sample_loop_empty_table (table : list float) (base : Z) (fuel : nat) :
  forall i n out, n <> 0 -> sample_loop fuel table 0 base i n out = None.
Proof.
  destruct fuel as [|f]; intros i n out Hn; [reflexivity|].
  cbn [sample_loop]. destruct (Z.eqb_spec n 0); [contradiction|].
  rewrite advance_empty. reflexivity.
Qed.

(** More fuel never changes a result. *)
Lemma wrap_high_more_fuel (size : Z) (f : nat) :
  forall i r (f' : nat), wrap_high f size i = Some r -> (f <= f')%nat ->
  wrap_high f' size i = Some r.
Proof.
  induction f as [|f IH]; intros i r f' H Hle; [discriminate|].
  destruct f' as [|f']; [lia|].
  cbn [wrap_high] in *. destruct (i >=? size); [|assumption].
  apply IH; [assumption | lia].
Qed.

Lemma wrap_low_more_fuel (size : Z) (f : nat) :
  forall i r (f' : nat), wrap_low f size i = Some r -> (f <= f')%nat ->
  wrap_low f' size i = Some r.
Proof.
  induction f as [|f IH]; intros i r f' H Hle; [discriminate|].
  destruct f' as [|f']; [lia|].
  cbn [wrap_low] in *. destruct (i <? 0); [|assumption].
  apply IH; [assumption | lia].
Qed.

Lemma advance_more_fuel (size i inc r : Z) (f f' : nat) :
  advance f size i inc = Some r -> (f <= f')%nat -> advance f' size i inc = Some r.
Proof.
  unfold advance. intros H Hle.
  destruct (wrap_high f size (CInt.add i inc)) as [i1|] eqn:Hh; [|discriminate].
  rewrite (wrap_high_more_fuel _ _ _ _ _ Hh Hle).
  apply (wrap_low_more_fuel _ _ _ _ _ H Hle).
Qed.

Lemma sample_loop_more_fuel (table : list float) (size base : Z) (f : nat) :
  forall i n out r (f' : nat),
  sample_loop f table size base i n out = Some r -> (f <= f')%nat ->
  sample_loop f' table size base i n out = Some r.
Proof.
  induction f as [|f IH]; intros i n out r f' H Hle; [discriminate|].
  destruct f' as [|f']; [lia|].
  cbn [sample_loop] in *. destruct (n =? 0); [assumption|].
  destruct (advance f size i (1 * base)) as [i'|] eqn:Ha; [|discriminate].
  rewrite (advance_more_fuel _ _ _ _ _ _ Ha) by lia.
  apply IH; [assumption | lia].
Qed.

Lemma fuel_above (b : Z) : exists f0 : nat, forall f : nat, (f0 <= f)%nat -> b <= Z.of_nat f.
Proof. exists (Z.to_nat b). intros f Hf. lia. Qed.

Lemma perform_returns (x : t_randwave) (frequency : list float) (n : Z) (fuel : nat) :
  1 <= wavetable_size x -> 0 <= n <= CInt.INT_MAX ->
  n + 1 + advance_fuel <= Z.of_nat fuel ->
  let inc := base_sample_increment (wavetable_size x) n in
  randwave_perform fuel x frequency n
  = Some (block_of x inc n,
          with_phase x (phase_after (wavetable_size x) inc (phase x) (Z.to_nat n))).
Proof.
  intros Hs Hn Hf inc. unfold randwave_perform, block_of.
  fold inc.
  rewrite <- (Z2Nat.id n) at 1 by lia.
  rewrite sample_loop_returns by (assumption || lia).
  reflexivity.
Qed.

Lemma perform_result (x : t_randwave) (frequency : list float) (n : Z) (fuel : nat)
      (out : list (option float)) (x' : t_randwave) :
  1 <= wavetable_size x -> 0 <= n <= CInt.INT_MAX ->
  randwave_perform fuel x frequency n = Some (out, x') ->
  let inc := base_sample_increment (wavetable_size x) n in
  out = block_of x inc n
  /\ x' = with_phase x (phase_after (wavetable_size x) inc (phase x) (Z.to_nat n)).
Proof.
  intros Hs Hn H inc.
  destruct (fuel_above (n + 1 + advance_fuel)) as [f0 Hf0].
  pose proof (perform_returns x frequency n (Nat.max fuel f0) Hs Hn
                (Hf0 _ (Nat.le_max_r _ _))) as Hbig.
  cbv zeta in Hbig. fold inc in Hbig.
  unfold randwave_perform in H, Hbig.
  destruct (sample_loop fuel _ _ _ _ _ _) as [[o i']|] eqn:Hl; [|discriminate].
  rewrite (sample_loop_more_fuel _ _ _ _ _ _ _ _ _ Hl (Nat.le_max_l _ _)) in Hbig.
  injection H as <- <-. injection Hbig as -> ->. split; reflexivity.
Qed.

(** A block is played to its end, and with one result whatever the fuel. *)
Lemma perform_total (x : t_randwave) (frequency : list float) (n : Z) :
  1 <= wavetable_size x -> 0 <= n <= CInt.INT_MAX ->
  let inc := base_sample_increment (wavetable_size x) n in
  let out := block_of x inc n in
  let x' := with_phase x (phase_after (wavetable_size x) inc (phase x) (Z.to_nat n)) in
  exists fuel0 : nat,
    (forall fuel, (fuel0 <= fuel)%nat -> randwave_perform fuel x frequency n = Some (out, x'))
    /\ (forall fuel o y, randwave_perform fuel x frequency n = Some (o, y) -> o = out /\ y = x').
Proof.
  intros Hs Hn inc out x'.
  destruct (fuel_above (n + 1 + advance_fuel)) as [fuel0 Hfuel0].
  exists fuel0. split.
  - intros fuel Hfuel. apply perform_returns; [assumption | assumption |].
    apply Hfuel0, Hfuel.
  - intros fuel o y H. exact (perform_result x frequency n fuel o y Hs Hn H).
Qed.

Lemma perform_empty_table (x : t_randwave) (frequency : list float) (n : Z) (fuel : nat) :
  wavetable_size x = 0 -> n <> 0 -> randwave_perform fuel x frequency n = None.
Proof.
  intros Hs Hn. unfold randwave_perform. rewrite Hs.
  rewrite sample_loop_empty_table by assumption. reflexivity.
Qed.

(** The increment on a few blocks.  On this range of table and block
    sizes the binary32 quotient rounds to the same integer as the exact
    one. *)
Example base_sample_increment_default : base_sample_increment 2048 64 = 32.
Proof. reflexivity. Qed.

Example base_sample_increment_rounds_up : base_sample_increment 100 30 = 4.
Proof. reflexivity. Qed.

Example base_sample_increment_is_ceiling :
  forallb (fun size =>
             forallb (fun n => base_sample_increment size n =? (size + n - 1) / n)
                     (map Z.of_nat (seq 1 64)))
          (map Z.of_nat (seq 0 257))
  = true.
Proof. vm_compute. reflexivity. Qed.

(** One block of the example object: two samples, increment 2. *)
Example perform_example :
  randwave_perform 9 example_object [] 2
  = Some ([Some (of_int 1); Some (of_int (-1))], with_phase example_object 1).
Proof. reflexivity. Qed.

(* ================================================================== *)
(** * Arrays and loops *)
(* ================================================================== *)

Section Arrays.

Context {A : Type}.

Lemma length_list_set (l : list A) : forall n v, length (list_set l n v) = length l.
Proof.
  induction l as [|h t IH]; intros [|n] v; cbn; auto.
Qed.

Lemma nth_list_set (l : list A) :
  forall n m v d, (n < length l)%nat ->
  nth m (list_set l n v) d = if Nat.eqb m n then v else nth m l d.
Proof.
  induction l as [|h t IH]; intros [|n] [|m] v d Hn; cbn in *; try lia; auto.
  apply IH. lia.
Qed.

Lemma length_upd (l : list A) (i : Z) (v : A) : length (upd l i v) = length l.
Proof. unfold upd. destruct (i <? 0); [reflexivity | apply length_list_set]. Qed.

Lemma get_upd (l : list A) (i j : Z) (v d : A) :
  0 <= i < Z.of_nat (length l) -> 0 <= j ->
  get d (upd l i v) j = if j =? i then v else get d l j.
Proof.
  intros Hi Hj. unfold get, upd.
  destruct (Z.ltb_spec i 0); [lia|]. destruct (Z.ltb_spec j 0); [lia|].
  rewrite nth_list_set by lia.
  destruct (Z.eqb_spec j i) as [->|Hne].
  - rewrite Nat.eqb_refl. reflexivity.
  - destruct (Nat.eqb_spec (Z.to_nat j) (Z.to_nat i)); [lia | reflexivity].
Qed.

Lemma get_nth (l : list A) (d : A) (n : nat) : get d l (Z.of_nat n) = nth n l d.
Proof.
  unfold get. destruct (Z.ltb_spec (Z.of_nat n) 0); [lia|].
  rewrite Nat2Z.id. reflexivity.
Qed.

Lemma get_repeat (v d : A) (n : nat) (i : Z) :
  0 <= i < Z.of_nat n -> get d (repeat v n) i = v.
Proof.
  intros Hi. unfold get. destruct (Z.ltb_spec i 0); [lia|].
  apply nth_repeat_lt. lia.
Qed.

End Arrays.

Lemma for_loop_app {S : Type} (body : Z -> S -> S) (a : nat) :
  forall (b : nat) (lo : Z) (s : S),
  for_loop (a + b) lo body s = for_loop b (lo + Z.of_nat a) body (for_loop a lo body s).
Proof.
  induction a as [|a IH]; intros b lo s.
  - cbn. rewrite Z.add_0_r. reflexivity.
  - cbn [for_loop Nat.add]. rewrite IH. f_equal. lia.
Qed.

(** A loop that keeps a property of its state keeps it to the end. *)
Lemma for_loop_invariant {S : Type} (P : S -> Prop) (body : Z -> S -> S) (n : nat) :
  forall (lo : Z) (s : S),
  (forall i s', lo <= i < lo + Z.of_nat n -> P s' -> P (body i s')) ->
  P s -> P (for_loop n lo body s).
Proof.
  induction n as [|n IH]; intros lo s Hb Hs; [assumption|].
  cbn [for_loop]. apply IH.
  - intros i s' Hi. apply Hb. lia.
  - apply Hb; [lia | assumption].
Qed.

(** A loop that stores [g i] at index [i], for the indices of
    [[lo, lo + n)]. *)
Lemma for_loop_store {A : Type} (g : Z -> A) (d : A) (n : nat) :
  forall (lo : Z) (t : list A),
  0 <= lo -> lo + Z.of_nat n <= Z.of_nat (length t) ->
  length (for_loop n lo (fun i t' => upd t' i (g i)) t) = length t
  /\ forall j, 0 <= j ->
     get d (for_loop n lo (fun i t' => upd t' i (g i)) t) j
     = if (lo <=? j) && (j <? lo + Z.of_nat n) then g j else get d t j.
Proof.
  induction n as [|n IH]; intros lo t Hlo Hlen.
  - cbn. split; [reflexivity|]. intros j Hj.
    destruct (Z.leb_spec lo j), (Z.ltb_spec j (lo + 0)); cbn; try reflexivity; lia.
  - cbn [for_loop].
    destruct (IH (lo + 1) (upd t lo (g lo))) as [Hl Hg];
      [lia | rewrite length_upd; lia |].
    rewrite length_upd in Hl. split; [assumption|].
    intros j Hj. rewrite Hg by assumption.
    rewrite get_upd by lia.
    destruct (Z.leb_spec (lo + 1) j), (Z.ltb_spec j (lo + 1 + Z.of_nat n)),
      (Z.leb_spec lo j), (Z.ltb_spec j (lo + Z.of_nat (S n))),
      (Z.eqb_spec j lo); cbn; subst; try reflexivity; lia.
Qed.

(* ================================================================== *)
(** * The cardinal function at a control point *)
(* ================================================================== *)

Lemma fsub_diag (a : float) : fsub a a = S754_zero false \/ fsub a a = S754_nan.
Proof.
  destruct a as [[|]|[|]| |s m e]; cbn; auto.
  left. unfold fsub, SFsub. rewrite Z.sub_diag. reflexivity.
Qed.

Lemma zero_or_nan_to_double (x : float) : zero_or_nan x -> zero_or_nan (to_double x).
Proof. intros H. destruct x; try exact I; destruct H. Qed.

Lemma zero_or_nan_dmul_r (a z : double) : zero_or_nan z -> zero_or_nan (dmul a z).
Proof. intros H. destruct z; try destruct H; destruct a; exact I. Qed.

Lemma zero_or_nan_half (z : double) : zero_or_nan z -> zero_or_nan (ddiv z (double_of_int 2)).
Proof. intros H. destruct z; try destruct H; exact I. Qed.

Lemma ddiv_zero_or_nan (a b : double) : zero_or_nan a -> zero_or_nan b -> ddiv a b = S754_nan.
Proof.
  intros Ha Hb. destruct a; try destruct Ha; destruct b; try destruct Hb; reflexivity.
Qed.

Lemma fadd_nan_l (a : float) : fadd S754_nan a = S754_nan.
Proof. reflexivity. Qed.

Lemma fadd_nan_r (a : float) : fadd a S754_nan = S754_nan.
Proof. destruct a; reflexivity. Qed.

Lemma fmul_nan_r (a : float) : fmul a S754_nan = S754_nan.
Proof. destruct a; reflexivity. Qed.

Lemma nan_not_in_unit_interval : ~ in_unit_interval S754_nan.
Proof. intros [q [H _]]. discriminate H. Qed.

Section Libm.

Variables c_sin c_tan : double -> double.

(** Annex F of the C standard (F.10.1.6, F.10.1.7): [sin] and [tan] return a zero
    argument unchanged, and a NaN for a NaN. *)
Hypothesis sin_zero : forall s, c_sin (S754_zero s) = S754_zero s.
Hypothesis sin_nan : c_sin S754_nan = S754_nan.
Hypothesis tan_zero : forall s, c_tan (S754_zero s) = S754_zero s.
Hypothesis tan_nan : c_tan S754_nan = S754_nan.

Lemma zero_or_nan_sin (z : double) : zero_or_nan z -> zero_or_nan (c_sin z).
Proof.
  intros H. destruct z; try destruct H; [rewrite sin_zero | rewrite sin_nan]; exact I.
Qed.

Lemma zero_or_nan_tan (z : double) : zero_or_nan z -> zero_or_nan (c_tan z).
Proof.
  intros H. destruct z; try destruct H; [rewrite tan_zero | rewrite tan_nan]; exact I.
Qed.

(** Without a case for [x = 0] the quotient is [0 / 0]. *)
Lemma trig_cardinal_nan (x : float) (N : Z) :
  zero_or_nan x -> N <> 0 -> trig_cardinal c_sin c_tan x N = S754_nan.
Proof.
  intros Hx HN. unfold trig_cardinal.
  destruct (Z.eqb_spec N 0); [contradiction|].
  destruct (Z.rem N 2 =? 1);
    (rewrite ddiv_zero_or_nan; [reflexivity | |]);
    repeat first [ assumption
                 | apply zero_or_nan_sin | apply zero_or_nan_tan
                 | apply zero_or_nan_half | apply zero_or_nan_dmul_r
                 | apply zero_or_nan_to_double ].
Qed.

Lemma trig_cardinal_diag (a : float) (N : Z) :
  N <> 0 -> trig_cardinal c_sin c_tan (fsub a a) N = S754_nan.
Proof.
  intros HN. apply trig_cardinal_nan; [|assumption].
  destruct (fsub_diag a) as [-> | ->]; exact I.
Qed.

(** The sum for an index that carries a control point. *)
Lemma interp_sum_at_point (size : Z) (pts : list sample_amplitude_pair)
      (num_points i k : Z) :
  0 <= k < num_points ->
  sample (get (mk_pair 0 (S754_zero false)) pts k) = i ->
  interp_sum c_sin c_tan size pts num_points i = S754_nan.
Proof.
  intros Hk Hs. unfold interp_sum.
  replace (Z.to_nat num_points)
    with (Z.to_nat k + S (Z.to_nat (num_points - k - 1)))%nat by lia.
  rewrite for_loop_app. cbn [for_loop].
  rewrite Z2Nat.id, Z.add_0_l by lia.
  rewrite Hs, trig_cardinal_diag, fmul_nan_r, fadd_nan_r by lia.
  apply for_loop_invariant with (P := fun s => s = S754_nan); [|reflexivity].
  intros j s' _ ->. apply fadd_nan_l.
Qed.

Lemma hard_limit_nan : hard_limit S754_nan = S754_nan.
Proof. reflexivity. Qed.

(** What the hard limiter does achieve: its result is neither above 1 nor
    below -1, in the sense of the comparisons of C. *)
Lemma hard_limit_bounds (sum : float) :
  flt (of_int 1) (hard_limit sum) = false
  /\ flt (hard_limit sum) (of_int (-1)) = false.
Proof.
  unfold hard_limit.
  destruct (flt (of_int 1) sum) eqn:H1; [split; reflexivity|].
  destruct (flt sum (of_int (-1))) eqn:H2; [split; reflexivity|].
  split; assumption.
Qed.

Lemma trig_interp_get (table : list float) (size : Z)
      (pts : list sample_amplitude_pair) (num_points i : Z) (d : float) :
  0 <= i < size -> size <= Z.of_nat (length table) ->
  get d (trig_interp c_sin c_tan table size pts num_points) i
  = hard_limit (interp_sum c_sin c_tan size pts num_points i).
Proof.
  intros Hi Hlen. unfold trig_interp.
  destruct (for_loop_store
              (fun i => hard_limit (interp_sum c_sin c_tan size pts num_points i))
              d (Z.to_nat size) 0 table) as [_ Hg]; [lia | lia |].
  rewrite Hg by lia.
  destruct (Z.leb_spec 0 i), (Z.ltb_spec i (0 + Z.of_nat (Z.to_nat size)));
    cbn; try reflexivity; lia.
Qed.

Lemma trig_interp_length (table : list float) (size : Z)
      (pts : list sample_amplitude_pair) (num_points : Z) :
  size <= Z.of_nat (length table) ->
  length (trig_interp c_sin c_tan table size pts num_points) = length table.
Proof.
  intros Hlen. unfold trig_interp.
  destruct (for_loop_store
              (fun i => hard_limit (interp_sum c_sin c_tan size pts num_points i))
              (S754_zero false) (Z.to_nat size) 0 table) as [Hl _]; [lia | lia |].
  exact Hl.
Qed.

End Libm.

(* ================================================================== *)
(** * Rounding below a power of two *)
(* ================================================================== *)

Lemma pow2_split (n : Z) : 1 <= n -> 2 ^ n = 2 * 2 ^ (n - 1).
Proof.
  intros Hn. replace n with (Z.succ (n - 1)) at 1 by lia.
  apply Z.pow_succ_r. lia.
Qed.

Lemma pow2_pos (n : Z) : 0 <= n -> 1 <= 2 ^ n.
Proof. intros Hn. pose proof (Z.pow_pos_nonneg 2 n ltac:(lia) Hn). lia. Qed.

Lemma digits2_le (m : positive) :
  forall j, 0 <= j -> Zpos m <= 2 ^ j -> Zpos (digits2_pos m) <= j + 1.
Proof.
  induction m as [m IH|m IH|]; intros j Hj Hm; cbn [digits2_pos].
  - destruct (Z.eq_dec j 0) as [->|Hne]; [cbn in Hm; lia|].
    rewrite pow2_split in Hm by lia.
    specialize (IH (j - 1) ltac:(lia) ltac:(lia)). lia.
  - destruct (Z.eq_dec j 0) as [->|Hne]; [cbn in Hm; lia|].
    rewrite pow2_split in Hm by lia.
    specialize (IH (j - 1) ltac:(lia) ltac:(lia)). lia.
  - lia.
Qed.

Lemma shr_1_below (k : Z) (mrs : shr_record) (e : Z) :
  below_pow2 k mrs e -> e + 1 <= k -> below_pow2 k (shr_1 mrs) (e + 1).
Proof.
  intros (Hm & He & Hb) Hk.
  rewrite (pow2_split (k - e)) in Hb by lia.
  pose proof (pow2_pos (k - e - 1) ltac:(lia)) as Hp.
  destruct mrs as [m r s]. unfold below_pow2, carry in *. cbn [shr_m shr_r shr_s] in *.
  replace (k - (e + 1)) with (k - e - 1) by ring.
  destruct m as [|[p|p|]|p]; cbn [shr_1 shr_m shr_r shr_s orb];
    destruct r, s; cbn [orb] in *; lia.
Qed.

Lemma iter_shr_1_below (k : Z) (p : positive) :
  forall mrs e, below_pow2 k mrs e -> e + Zpos p <= k ->
  below_pow2 k (iter_pos shr_1 p mrs) (e + Zpos p).
Proof.
  induction p as [p IH|p IH|]; intros mrs e H Hk; cbn [iter_pos].
  - replace (e + Zpos p~1) with (e + 1 + Zpos p + Zpos p) by lia.
    apply IH; [|lia]. apply IH; [|lia]. apply shr_1_below; [assumption | lia].
  - replace (e + Zpos p~0) with (e + Zpos p + Zpos p) by lia.
    apply IH; [|lia]. apply IH; [assumption | lia].
  - apply shr_1_below; assumption.
Qed.

Lemma shr_below (k : Z) (mrs : shr_record) (e n : Z) :
  below_pow2 k mrs e -> e + n <= k ->
  below_pow2 k (fst (shr mrs e n)) (snd (shr mrs e n)).
Proof.
  intros H Hk. destruct n as [|p|p]; cbn [shr fst snd]; try assumption.
  apply iter_shr_1_below; assumption.
Qed.

Lemma shr_record_of_loc_below (k m e : Z) (l : location) :
  0 <= m -> e <= k ->
  m + (match l with loc_Exact => 0 | _ => 1 end) <= 2 ^ (k - e) ->
  below_pow2 k (shr_record_of_loc m l) e.
Proof.
  intros Hm He Hb. unfold below_pow2, carry.
  destruct l as [|[| |]]; cbn [shr_record_of_loc shr_m shr_r shr_s orb]; lia.
Qed.

Lemma round_nearest_even_below (k : Z) (mrs : shr_record) (e : Z) :
  below_pow2 k mrs e ->
  0 <= round_nearest_even (shr_m mrs) (loc_of_shr_record mrs)
  /\ round_nearest_even (shr_m mrs) (loc_of_shr_record mrs) <= 2 ^ (k - e).
Proof.
  intros (Hm & He & Hb). destruct mrs as [m r s]. unfold carry in Hb.
  cbn [shr_m shr_r shr_s] in *.
  destruct r, s; cbn [loc_of_shr_record round_nearest_even orb] in *;
    try destruct (Z.even m); lia.
Qed.

Section Rounding.

Variables prec emax : Z.
Hypothesis prec_pos : 0 < prec.

Lemma fexp_below (k m e : Z) :
  emin prec emax <= k -> 0 <= m -> e <= k -> m <= 2 ^ (k - e) ->
  fexp prec emax (Zdigits2 m + e) <= k.
Proof.
  intros Hmin Hm He Hb. unfold fexp.
  destruct m as [|p|p]; cbn [Zdigits2]; [lia | | lia].
  pose proof (digits2_le p (k - e) ltac:(lia) Hb). lia.
Qed.

Lemma shr_fexp_below (k m e : Z) (l : location) :
  emin prec emax <= k -> 0 <= m -> e <= k ->
  m + (match l with loc_Exact => 0 | _ => 1 end) <= 2 ^ (k - e) ->
  below_pow2 k (fst (shr_fexp prec emax m e l)) (snd (shr_fexp prec emax m e l)).
Proof.
  intros Hmin Hm He Hb. unfold shr_fexp.
  apply shr_below.
  - apply shr_record_of_loc_below; assumption.
  - pose proof (fexp_below k m e Hmin Hm He ltac:(destruct l; lia)). lia.
Qed.

(** Rounding to nearest even never crosses a power of two that the format
    holds: a number of magnitude at most [2 ^ k] rounds to one. *)
Lemma binary_round_aux_bounded (k : Z) (s : bool) (m e : Z) (l : location) :
  emin prec emax <= k -> k <= emax - prec ->
  0 <= m -> e <= k ->
  m + (match l with loc_Exact => 0 | _ => 1 end) <= 2 ^ (k - e) ->
  bounded_by k s (binary_round_aux prec emax s m e l).
Proof.
  intros Hmin Hmax Hm He Hb. unfold binary_round_aux.
  pose proof (shr_fexp_below k m e l Hmin Hm He Hb) as H1.
  destruct (shr_fexp prec emax m e l) as [mrs1 e1]. cbn [fst snd] in H1.
  pose proof (round_nearest_even_below k mrs1 e1 H1) as [Hr0 Hr1].
  set (m2 := round_nearest_even (shr_m mrs1) (loc_of_shr_record mrs1)) in *.
  destruct H1 as (_ & He1 & _).
  pose proof (shr_fexp_below k m2 e1 loc_Exact Hmin Hr0 He1 ltac:(cbv iota; lia)) as H2.
  destruct (shr_fexp prec emax m2 e1 loc_Exact) as [mrs2 e2]. cbn [fst snd] in H2.
  destruct H2 as (Hm2 & He2 & Hb2). unfold carry in Hb2.
  destruct (shr_m mrs2) as [|p|p]; [reflexivity | | lia].
  destruct (Z.leb_spec e2 (emax - prec)); [|lia].
  cbn. repeat split; try assumption.
  destruct (shr_r mrs2 || shr_s mrs2); lia.
Qed.

Lemma iter_xO_spec (d : positive) :
  forall mx : positive, Zpos (Pos.iter xO mx d) = Zpos mx * 2 ^ Zpos d.
Proof.
  induction d as [|d IH] using Pos.peano_ind; intros mx.
  - cbn. lia.
  - rewrite Pos.iter_succ, Pos2Z.inj_succ, Z.pow_succ_r by lia.
    rewrite Pos2Z.inj_xO, IH. ring.
Qed.

Lemma shl_align_spec (mx : positive) (ex ex' : Z) :
  snd (shl_align mx ex ex') <= ex
  /\ Zpos (fst (shl_align mx ex ex')) = Zpos mx * 2 ^ (ex - snd (shl_align mx ex ex')).
Proof.
  unfold shl_align. destruct (ex' - ex) as [|d|d] eqn:Hd; cbn [fst snd].
  - rewrite Z.sub_diag. cbn. lia.
  - rewrite Z.sub_diag. cbn. lia.
  - split; [lia|]. replace (ex - ex') with (Zpos d) by lia.
    apply iter_xO_spec.
Qed.

(** Aligning to an exponent that is not above the current one reaches it. *)
Lemma shl_align_le (mx : positive) (ex ex' : Z) :
  ex' <= ex ->
  Zpos (fst (shl_align mx ex ex')) = Zpos mx * 2 ^ (ex - ex').
Proof.
  intros Hle. unfold shl_align. destruct (ex' - ex) as [|d|d] eqn:Hd; cbn [fst].
  - replace (ex - ex') with 0 by lia. cbn. lia.
  - lia.
  - replace (ex - ex') with (Zpos d) by lia. apply iter_xO_spec.
Qed.

Lemma binary_round_bounded (k : Z) (s : bool) (m : positive) (e : Z) :
  emin prec emax <= k -> k <= emax - prec ->
  e <= k -> Zpos m <= 2 ^ (k - e) ->
  bounded_by k s (binary_round prec emax s m e).
Proof.
  intros Hmin Hmax He Hb. unfold binary_round.
  pose proof (shl_align_spec m e (fexp prec emax (Zpos (digits2_pos m) + e))) as [Hz Hv].
  destruct (shl_align m e _) as [mz ez]. cbn [fst snd] in *.
  apply binary_round_aux_bounded; try assumption; try lia.
  rewrite Hv, Z.add_0_r.
  replace (k - ez) with ((k - e) + (e - ez)) by ring.
  rewrite Z.pow_add_r by lia.
  apply Z.mul_le_mono_nonneg_r; [|assumption].
  pose proof (pow2_pos (e - ez) ltac:(lia)). lia.
Qed.

End Rounding.

(* ================================================================== *)
(** * The random amplitudes lie in [-1, 1] *)
(* ================================================================== *)

Lemma of_int_RAND_MAX : of_int RAND_MAX = S754_finite false 8388608 8.
Proof. vm_compute. reflexivity. Qed.

Lemma of_int_two : of_int 2 = S754_finite false 8388608 (-22).
Proof. vm_compute. reflexivity. Qed.

Lemma of_int_one : of_int 1 = S754_finite false 8388608 (-23).
Proof. vm_compute. reflexivity. Qed.

Lemma emin_binary32 : emin 24 128 = -149.
Proof. reflexivity. Qed.

(** [(float) r] for a value of [rand()]. *)
Lemma of_int_bounded (r : Z) : 0 <= r <= 2 ^ 31 -> bounded_by 31 false (of_int r).
Proof.
  intros Hr. unfold of_int, binary_normalize.
  destruct r as [|p|p]; [reflexivity | | lia].
  apply binary_round_bounded; rewrite ?emin_binary32; lia.
Qed.

(** [... / (float) RAND_MAX] *)
Lemma fdiv_RAND_MAX_bounded (f : float) :
  bounded_by 31 false f -> bounded_by 0 false (fdiv f (of_int RAND_MAX)).
Proof.
  rewrite of_int_RAND_MAX. intros Hf.
  destruct f as [s|s| |s m e]; cbn [bounded_by] in Hf; try contradiction.
  - subst s. reflexivity.
  - destruct Hf as (-> & He & Hm).
    unfold fdiv, SFdiv, SFdiv_core_binary.
    set (e' := Z.min (fexp 24 128 (Zdigits2 (Zpos m) + e - (Zdigits2 8388608 + 8))) (e - 8)).
    set (s := e - 8 - e').
    set (m' := match s with Z0 => Zpos m | Zpos _ => Z.shiftl (Zpos m) s | Zneg _ => 0 end).
    assert (He' : e' <= -24 /\ e' <= e - 8).
    { subst e'. unfold fexp. rewrite emin_binary32.
      change (Zdigits2 8388608) with 24. cbn [Zdigits2].
      pose proof (digits2_le m (31 - e) ltac:(lia) Hm). lia. }
    assert (Hm' : m' = Zpos m * 2 ^ s /\ 0 <= s).
    { assert (0 <= s) by (subst s; lia). split; [|assumption].
      subst m'. destruct s as [|p|p] eqn:Hs; [cbn; lia | | lia].
      rewrite Z.shiftl_mul_pow2 by lia. reflexivity. }
    destruct Hm' as [Hm' Hs].
    assert (Hbound : m' <= 8388608 * 2 ^ (- e')).
    { rewrite Hm'. change 8388608 with (2 ^ 23). rewrite <- Z.pow_add_r by lia.
      replace (23 + - e') with ((31 - e) + s) by (subst s; ring).
      rewrite Z.pow_add_r by lia.
      apply Z.mul_le_mono_nonneg_r; [|assumption].
      pose proof (pow2_pos s Hs). lia. }
    assert (Hpos : 0 <= m') by (rewrite Hm'; pose proof (pow2_pos s Hs); nia).
    pose proof (Z_div_mod m' 8388608 ltac:(lia)) as Hdm.
    destruct (Z.div_eucl m' 8388608) as [q r]. destruct Hdm as [Heq Hr].
    apply binary_round_aux_bounded; rewrite ?emin_binary32; try lia.
    rewrite Z.sub_0_l.
    unfold new_location. change (Z.even 8388608) with true. cbv iota.
    unfold new_location_even.
    destruct (Z.eqb_spec r 0); lia.
Qed.

(** [... * 2] *)
Lemma fmul_two_bounded (q : float) :
  bounded_by 0 false q -> bounded_by 1 false (fmul q (of_int 2)).
Proof.
  rewrite of_int_two. intros Hq.
  destruct q as [s|s| |s m e]; cbn [bounded_by] in Hq; try contradiction.
  - subst s. reflexivity.
  - destruct Hq as (-> & He & Hm). unfold fmul, SFmul.
    apply binary_round_aux_bounded; rewrite ?emin_binary32; try lia.
    rewrite Z.add_0_r, Pos2Z.inj_mul.
    replace (1 - (e + -22)) with ((0 - e) + 23) by ring.
    rewrite Z.pow_add_r by lia. change (2 ^ 23) with 8388608.
    apply Z.mul_le_mono_nonneg_r; lia.
Qed.

(** [... - 1] *)
Lemma fsub_one_bounded (t : float) :
  bounded_by 1 false t -> exists s, bounded_by 0 s (fsub t (of_int 1)).
Proof.
  rewrite of_int_one. intros Ht.
  destruct t as [s|s| |s m e]; cbn [bounded_by] in Ht; try contradiction.
  - subst s. exists true. cbn. repeat split; lia.
  - destruct Ht as (-> & He & Hm). unfold fsub, SFsub.
    set (ez := Z.min e (-23)).
    rewrite !shl_align_le by (subst ez; lia).
    cbn [cond_Zopp].
    assert (HB : Zpos 8388608 * 2 ^ (-23 - ez) = 2 ^ (0 - ez)).
    { change (Zpos 8388608) with (2 ^ 23). rewrite <- Z.pow_add_r by (subst ez; lia).
      f_equal. ring. }
    assert (HA : 0 < Zpos m * 2 ^ (e - ez) <= 2 * 2 ^ (0 - ez)).
    { pose proof (pow2_pos (e - ez) ltac:(subst ez; lia)) as Hp.
      split; [nia|].
      replace (2 * 2 ^ (0 - ez)) with (2 ^ (1 - e) * 2 ^ (e - ez)).
      - apply Z.mul_le_mono_nonneg_r; lia.
      - rewrite <- Z.pow_add_r by (subst ez; lia).
        replace (1 - e + (e - ez)) with (Z.succ (0 - ez)) by ring.
        apply Z.pow_succ_r. subst ez; lia. }
    rewrite HB.
    set (A := Zpos m * 2 ^ (e - ez)) in *. set (B := 2 ^ (0 - ez)) in *.
    unfold binary_normalize.
    destruct (A - B) as [|p|p] eqn:Hd.
    + exists false. reflexivity.
    + exists false. apply binary_round_bounded; rewrite ?emin_binary32; subst ez; lia.
    + exists true. apply binary_round_bounded; rewrite ?emin_binary32; subst ez; lia.
Qed.

Lemma bounded_in_unit_interval (s : bool) (x : float) :
  bounded_by 0 s x -> in_unit_interval x.
Proof.
  unfold in_unit_interval.
  destruct x as [s'|s'| |s' m e]; cbn [bounded_by]; try contradiction.
  - intros _. exists 0%Q. split; [reflexivity|]. split; discriminate.
  - intros (_ & He & Hm). eexists. split; [reflexivity|].
    destruct e as [|p|p]; [| lia |].
    + cbn in Hm. assert (m = 1%positive) by lia. subst m.
      destruct s'; cbn; split; discriminate.
    + change (0 - Zneg p) with (Zpos p) in Hm.
      unfold Qle. cbn [Qnum Qden]. rewrite Pos2Z.inj_pow.
      destruct s'; cbn [cond_Zopp]; lia.
Qed.

(** Every amplitude the generator draws is a number of [-1, 1]. *)
Lemma random_amplitude_in_range (r : Z) :
  0 <= r <= RAND_MAX -> in_unit_interval (random_amplitude r).
Proof.
  intros Hr. unfold random_amplitude.
  destruct (fsub_one_bounded
              (fmul (fdiv (of_int r) (of_int RAND_MAX)) (of_int 2))) as [s Hs].
  - apply fmul_two_bounded, fdiv_RAND_MAX_bounded, of_int_bounded.
    unfold RAND_MAX in Hr. change (2 ^ 31) with 2147483648. lia.
  - exact (bounded_in_unit_interval s _ Hs).
Qed.

(* ================================================================== *)
(** * Roundings that lose nothing *)
(* ================================================================== *)

Lemma shr_1_double (a : Z) :
  0 <= a ->
  shr_1 (Build_shr_record (2 * a) false false) = Build_shr_record a false false.
Proof. intros Ha. destruct a as [|p|p]; [reflexivity | reflexivity | lia]. Qed.

Lemma iter_shr_1_exact (p : positive) :
  forall a, 0 <= a ->
  iter_pos shr_1 p (Build_shr_record (a * 2 ^ Zpos p) false false)
  = Build_shr_record a false false.
Proof.
  induction p as [p IH|p IH|]; intros a Ha; cbn [iter_pos];
    try pose proof (pow2_pos (Zpos p) ltac:(lia)) as Hp.
  - replace (a * 2 ^ Zpos p~1) with (2 * ((a * 2 ^ Zpos p) * 2 ^ Zpos p))
      by (replace (Zpos p~1) with (Zpos p + Zpos p + 1) by lia;
          rewrite !Z.pow_add_r by lia; change (2 ^ 1) with 2; ring).
    rewrite shr_1_double by nia. rewrite IH by nia. apply IH. assumption.
  - replace (a * 2 ^ Zpos p~0) with ((a * 2 ^ Zpos p) * 2 ^ Zpos p)
      by (replace (Zpos p~0) with (Zpos p + Zpos p) by lia;
          rewrite !Z.pow_add_r by lia; ring).
    rewrite IH by nia. apply IH. assumption.
  - change (2 ^ 1) with 2. rewrite Z.mul_comm. apply shr_1_double. assumption.
Qed.

Lemma Zdigits2_double (a : Z) : 0 < a -> Zdigits2 (2 * a) = Zdigits2 a + 1.
Proof. intros Ha. destruct a as [|p|p]; try lia. cbn. lia. Qed.

Lemma Zdigits2_shift (a n : Z) : 0 < a -> 0 <= n -> Zdigits2 (a * 2 ^ n) = Zdigits2 a + n.
Proof.
  intros Ha Hn. revert n Hn. apply natlike_ind.
  - rewrite Z.mul_1_r. lia.
  - intros n Hn IH. rewrite Z.pow_succ_r by assumption.
    replace (a * (2 * 2 ^ n)) with (2 * (a * 2 ^ n)) by ring.
    rewrite Zdigits2_double by (pose proof (pow2_pos n Hn); nia). lia.
Qed.

Section Exact.
Variables prec emax : Z.

(** A mantissa that only carries zero bits below the target exponent is
    rounded without loss. *)
Lemma binary_round_aux_exact (s : bool) (V : positive) (E n : Z) :
  0 <= n -> fexp prec emax (Zpos (digits2_pos V) + E) = E -> E <= emax - prec ->
  binary_round_aux prec emax s (Zpos V * 2 ^ n) (E - n) loc_Exact = S754_finite s V E.
Proof.
  intros Hn Hcan Hmax. unfold binary_round_aux.
  assert (H1 : shr_fexp prec emax (Zpos V * 2 ^ n) (E - n) loc_Exact
               = (Build_shr_record (Zpos V) false false, E)).
  { unfold shr_fexp. rewrite Zdigits2_shift by lia. cbn [Zdigits2].
    replace (Zpos (digits2_pos V) + n + (E - n)) with (Zpos (digits2_pos V) + E) by ring.
    rewrite Hcan. replace (E - (E - n)) with n by ring.
    cbn [shr_record_of_loc]. unfold shr.
    destruct n as [|p|p]; [| |lia].
    - rewrite Z.mul_1_r, Z.sub_0_r. reflexivity.
    - rewrite iter_shr_1_exact by lia. f_equal. ring. }
  rewrite H1. cbn [shr_m loc_of_shr_record round_nearest_even].
  assert (H2 : shr_fexp prec emax (Zpos V) E loc_Exact
               = (Build_shr_record (Zpos V) false false, E)).
  { unfold shr_fexp. cbn [Zdigits2]. rewrite Hcan, Z.sub_diag. reflexivity. }
  rewrite H2. cbn [shr_m].
  destruct (Z.leb_spec E (emax - prec)); [reflexivity | lia].
Qed.

Lemma binary_round_exact (s : bool) (m V : positive) (e : Z) :
  let T := fexp prec emax (Zpos (digits2_pos m) + e) in
  T <= emax - prec ->
  (T <= e /\ Zpos V = Zpos m * 2 ^ (e - T)) \/ (e <= T /\ Zpos m = Zpos V * 2 ^ (T - e)) ->
  binary_round prec emax s m e = S754_finite s V T.
Proof.
  intros T Hmax H. unfold binary_round. fold T.
  assert (Hdig : Zpos (digits2_pos V) + T = Zpos (digits2_pos m) + e).
  { destruct H as [[Hle HV]|[Hle Hm]].
    - change (Zdigits2 (Zpos V) + T = Zdigits2 (Zpos m) + e).
      rewrite HV, Zdigits2_shift by lia. ring.
    - change (Zdigits2 (Zpos V) + T = Zdigits2 (Zpos m) + e).
      rewrite Hm, Zdigits2_shift by lia. ring. }
  assert (Hcan : fexp prec emax (Zpos (digits2_pos V) + T) = T) by (rewrite Hdig; reflexivity).
  destruct (Z.le_gt_cases e T) as [HeT|HeT].
  - assert (Hm : Zpos m = Zpos V * 2 ^ (T - e)).
    { destruct H as [[Hle HV]|[_ Hm]]; [|assumption].
      replace T with e in * by lia. rewrite Z.sub_diag in *. lia. }
    assert (Hal : shl_align m e T = (m, e)).
    { unfold shl_align. destruct (T - e) eqn:Hd; try reflexivity; lia. }
    rewrite Hal, Hm. replace e with (T - (T - e)) at 2 by ring.
    apply binary_round_aux_exact; try assumption; lia.
  - assert (HV : Zpos V = Zpos m * 2 ^ (e - T)) by (destruct H as [[_ HV]|[Hle _]]; [assumption | lia]).
    pose proof (shl_align_le m e T ltac:(lia)) as Hfst.
    assert (Hsnd : snd (shl_align m e T) = T).
    { unfold shl_align. destruct (T - e) eqn:Hd; try lia. reflexivity. }
    destruct (shl_align m e T) as [mz ez]. cbn [fst snd] in *. subst ez.
    assert (mz = V) by lia. subst mz.
    replace (Zpos V) with (Zpos V * 2 ^ 0) by (cbn; lia).
    replace T with (T - 0) at 1 by ring.
    apply binary_round_aux_exact; try assumption; lia.
Qed.
End Exact.

Lemma digits2_lt (m : positive) :
  forall j, 0 <= j -> Zpos m < 2 ^ j -> Zpos (digits2_pos m) <= j.
Proof.
  induction m as [m IH|m IH|]; intros j Hj Hm; cbn [digits2_pos].
  - destruct (Z.eq_dec j 0) as [->|Hne]; [cbn in Hm; lia|].
    rewrite pow2_split in Hm by lia.
    specialize (IH (j - 1) ltac:(lia) ltac:(lia)). lia.
  - destruct (Z.eq_dec j 0) as [->|Hne]; [cbn in Hm; lia|].
    rewrite pow2_split in Hm by lia.
    specialize (IH (j - 1) ltac:(lia) ltac:(lia)). lia.
  - destruct (Z.eq_dec j 0) as [->|Hne]; [cbn in Hm; lia|]. lia.
Qed.

(** Rounding a mantissa that holds an integer of at most [prec] bits: the
    result is that integer, on [prec] digits. *)
Lemma round_small_int (prec emax : Z) (s : bool) (z M : positive) (ez : Z) :
  0 < prec -> emin prec emax <= 1 - prec -> 0 <= emax - prec ->
  ez <= 0 -> Zpos M = Zpos z * 2 ^ (- ez) -> Zpos z < 2 ^ prec ->
  exists (V : positive) (T : Z),
    binary_round prec emax s M ez = S754_finite s V T
    /\ - prec < T <= 0 /\ Zpos V = Zpos z * 2 ^ (- T)
    /\ Zpos (digits2_pos V) = prec.
Proof.
  intros Hprec Hmin Hmax Hez HM Hz.
  pose proof (digits2_lt z prec ltac:(lia) Hz) as Hdz.
  assert (Hdz1 : 1 <= Zpos (digits2_pos z)) by lia.
  assert (HdM : Zpos (digits2_pos M) + ez = Zpos (digits2_pos z)).
  { change (Zdigits2 (Zpos M) + ez = Zdigits2 (Zpos z)).
    rewrite HM, Zdigits2_shift by lia. ring. }
  set (T := Zpos (digits2_pos z) - prec).
  assert (HT : fexp prec emax (Zpos (digits2_pos M) + ez) = T).
  { rewrite HdM. unfold fexp. subst T. lia. }
  pose proof (pow2_pos (- T) ltac:(subst T; lia)) as HpT.
  exists (Z.to_pos (Zpos z * 2 ^ (- T))), T.
  assert (HV : Zpos (Z.to_pos (Zpos z * 2 ^ (- T))) = Zpos z * 2 ^ (- T))
    by (apply Z2Pos.id; nia).
  split; [|split; [subst T; lia | split; [exact HV|]]].
  - rewrite <- HT. apply binary_round_exact; rewrite HT; [subst T; lia|].
    rewrite HV, HM.
    destruct (Z.le_gt_cases T ez) as [Hle|Hgt]; [left | right]; (split; [lia|]).
    + rewrite <- Z.mul_assoc, <- Z.pow_add_r by lia. do 2 f_equal. ring.
    + rewrite <- Z.mul_assoc, <- Z.pow_add_r by (subst T; lia). do 2 f_equal. ring.
  - change (Zdigits2 (Zpos (Z.to_pos (Zpos z * 2 ^ (- T)))) = prec).
    rewrite HV, Zdigits2_shift by (subst T; lia). cbn [Zdigits2]. subst T. ring.
Qed.

Lemma trunc_small_int (s : bool) (z V : positive) (T : Z) :
  T <= 0 -> Zpos V = Zpos z * 2 ^ (- T) ->
  trunc (S754_finite s V T) = Some (cond_Zopp s (Zpos z)).
Proof.
  intros HT HV. cbn [trunc]. do 2 f_equal.
  rewrite HV. replace T with (- (- T)) at 2 by ring.
  rewrite Z.shiftl_opp_r, Z.shiftr_div_pow2 by lia.
  apply Z.div_mul. pose proof (pow2_pos (- T) ltac:(lia)). lia.
Qed.

(** [(float) z] for an integer of at most 24 bits, and back. *)
Lemma of_int_small (z : Z) :
  0 < z < 2 ^ 24 ->
  exists (V : positive) (T : Z),
    of_int z = S754_finite false V T
    /\ - 24 < T <= 0 /\ Zpos V = z * 2 ^ (- T) /\ Zpos (digits2_pos V) = 24.
Proof.
  intros Hz. destruct z as [|p|p]; try lia.
  unfold of_int, binary_normalize.
  apply round_small_int; rewrite ?emin_binary32; cbn; lia.
Qed.




Lemma emin_binary64 : emin 53 1024 = -1074.
Proof. reflexivity. Qed.

(** [(int) (double) c] for a non-negative [int]. *)
Lemma to_int_double_of_int (c : Z) :
  0 <= c <= CInt.INT_MAX -> to_int (double_of_int c) = c.
Proof.
  intros Hc. destruct c as [|p|p]; [reflexivity | | lia].
  unfold double_of_int, binary_normalize.
  assert (H1 : Zpos p = Zpos p * 2 ^ (- 0)) by (cbn; lia).
  assert (H2 : Zpos p < 2 ^ 53)
    by (unfold CInt.INT_MAX in Hc; change (2 ^ 53) with 9007199254740992; lia).
  destruct (round_small_int 53 1024 false p p 0 ltac:(lia)
              ltac:(rewrite emin_binary64; lia) ltac:(lia) ltac:(lia) H1 H2)
    as (V & T & -> & HT & HV & _).
  unfold to_int. rewrite (trunc_small_int false p V T ltac:(lia) HV). cbn [cond_Zopp].
  destruct (Z.leb_spec CInt.INT_MIN (Zpos p)), (Z.leb_spec (Zpos p) CInt.INT_MAX);
    unfold CInt.INT_MIN, CInt.INT_MAX in *; cbn [andb]; lia.
Qed.

(** [(float) 2^j] *)
Lemma of_int_pow2 (j : Z) :
  0 <= j <= 30 -> of_int (2 ^ j) = S754_finite false 8388608 (j - 23).
Proof.
  intros Hj. pose proof (pow2_pos j ltac:(lia)) as Hp.
  assert (Hlt : 2 ^ j < 2 ^ 24 \/ 24 <= j) by
    (destruct (Z.lt_ge_cases j 24); [left; apply Z.pow_lt_mono_r; lia | right; assumption]).
  destruct Hlt as [Hlt|Hge].
  - destruct (of_int_small (2 ^ j) ltac:(lia)) as (V & T & -> & HT & HV & HdV).
    assert (HVp : Zpos V = 1 * 2 ^ (j - T))
      by (rewrite HV, <- Z.pow_add_r by lia; rewrite Z.mul_1_l; f_equal; ring).
    assert (Hd : Zdigits2 (Zpos V) = 1 + (j - T))
      by (rewrite HVp, Zdigits2_shift by lia; reflexivity).
    cbn [Zdigits2] in Hd. assert (T = j - 23) by lia. subst T.
    replace (j - (j - 23)) with 23 in HVp by ring.
    change (1 * 2 ^ 23) with (Zpos 8388608) in HVp. injection HVp as ->. reflexivity.
  - assert (Hcases : j = 24 \/ j = 25 \/ j = 26 \/ j = 27 \/ j = 28 \/ j = 29 \/ j = 30) by lia.
    destruct Hcases as [->|[->|[->|[->|[->|[->| ->]]]]]]; reflexivity.
Qed.

(** Dividing by a power of two only moves the exponent. *)
Lemma fdiv_pow2 (V : positive) (T j : Z) :
  Zpos (digits2_pos V) = 24 -> - 24 < T <= 0 -> 0 <= j <= 30 ->
  fdiv (S754_finite false V T) (S754_finite false 8388608 (j - 23))
  = S754_finite false V (T - j).
Proof.
  intros HdV HT Hj. unfold fdiv, SFdiv, SFdiv_core_binary.
  cbn [Zdigits2]. rewrite HdV. change (Zpos (digits2_pos 8388608)) with 24.
  replace (fexp 24 128 (24 + T - (24 + (j - 23)))) with (T - j - 1)
    by (unfold fexp; rewrite emin_binary32; lia).
  replace (Z.min (T - j - 1) (T - (j - 23))) with (T - j - 1) by lia.
  replace (T - (j - 23) - (T - j - 1)) with 24 by ring.
  cbv iota. rewrite Z.shiftl_mul_pow2 by lia. change (2 ^ 24) with 16777216.
  pose proof (Z_div_mod (Zpos V * 16777216) 8388608 ltac:(lia)) as Hdm.
  destruct (Z.div_eucl (Zpos V * 16777216) 8388608) as [q r]. destruct Hdm as [Heq Hr].
  assert (q = Zpos V * 2 ^ 1) by (change (2 ^ 1) with 2; lia).
  assert (r = 0) by lia. subst q r.
  change (new_location 8388608 0) with loc_Exact. cbn [xorb].
  replace (T - j - 1) with ((T - j) - 1) by ring.
  apply binary_round_aux_exact; [lia | | lia].
  rewrite HdV. unfold fexp. rewrite emin_binary32. lia.
Qed.

(** With a block size that is a power of two, and a table size that a
    [float] holds exactly, the increment is the integer ceiling of the
    quotient. *)
Lemma base_sample_increment_pow2 (size j : Z) :
  0 <= size < 2 ^ 24 -> 0 <= j <= 30 ->
  base_sample_increment size (2 ^ j) = (size + 2 ^ j - 1) / 2 ^ j.
Proof.
  intros Hsize Hj. unfold base_sample_increment.
  pose proof (pow2_pos j ltac:(lia)) as Hp.
  rewrite of_int_pow2 by assumption.
  destruct (Z.eq_dec size 0) as [->|Hne].
  { rewrite Z.div_small by lia. reflexivity. }
  destruct (of_int_small size ltac:(lia)) as (V & T & -> & HT & HV & HdV).
  rewrite fdiv_pow2 by assumption.
  unfold to_double, convert.
  assert (Hconv : binary_round 53 1024 false V (T - j)
                  = S754_finite false (Z.to_pos (Zpos V * 2 ^ 29)) (T - j - 29)).
  { replace (T - j - 29) with (fexp 53 1024 (Zpos (digits2_pos V) + (T - j)))
      by (rewrite HdV; unfold fexp; rewrite emin_binary64; lia).
    apply binary_round_exact; rewrite HdV; unfold fexp; rewrite emin_binary64.
    - lia.
    - left. split; [lia|]. rewrite Z2Pos.id by lia. do 2 f_equal. lia. }
  rewrite Hconv. unfold ceil. cbn [cond_Zopp].
  rewrite Z2Pos.id by lia.
  replace (T - j - 29) with (- (29 + j - T)) by ring.
  rewrite Z.shiftl_opp_r, Z.shiftr_div_pow2 by lia.
  assert (Hc : - (- (Zpos V * 2 ^ 29) / 2 ^ (29 + j - T)) = (size + 2 ^ j - 1) / 2 ^ j).
  { rewrite HV. pose proof (pow2_pos (29 - T) ltac:(lia)) as HpK.
    replace (size * 2 ^ (- T) * 2 ^ 29) with (size * 2 ^ (29 - T))
      by (rewrite <- Z.mul_assoc, <- Z.pow_add_r by lia; do 2 f_equal; ring).
    replace (2 ^ (29 + j - T)) with (2 ^ j * 2 ^ (29 - T))
      by (rewrite <- Z.pow_add_r by lia; f_equal; ring).
    rewrite <- Z.mul_opp_l, Z.div_mul_cancel_r by lia.
    pose proof (Z.div_mod (- size) (2 ^ j) ltac:(lia)) as H1.
    pose proof (Z.mod_pos_bound (- size) (2 ^ j) ltac:(lia)) as H2.
    apply Z.div_unique_pos with (r := 2 ^ j - 1 - (- size) mod 2 ^ j); lia. }
  rewrite Hc.
  apply to_int_double_of_int. split.
  - apply Z.div_pos; lia.
  - apply Z.lt_succ_r. apply Z.div_lt_upper_bound; [lia|].
    change (2 ^ 24) with 16777216 in Hsize. unfold CInt.INT_MAX. nia.
Qed.

(* ================================================================== *)
(** * The random sampler: [fill], [shuffle], [qsort] *)
(* ================================================================== *)

Lemma fill_spec (n : nat) :
  fill (repeat 0 n) (Z.of_nat n) = map (fun k => Z.of_nat k + 1) (seq 0 n).
Proof.
  unfold fill. rewrite Nat2Z.id.
  destruct (for_loop_store (fun i => i + 1) 0 n 0 (repeat 0 n)) as [Hl Hg];
    [lia | rewrite repeat_length; lia |].
  rewrite repeat_length in Hl.
  apply nth_ext with (d := 0) (d' := 0).
  - rewrite Hl, length_map, length_seq. reflexivity.
  - intros k Hk. rewrite Hl in Hk.
    rewrite <- get_nth, Hg by lia.
    destruct (Z.leb_spec 0 (Z.of_nat k)), (Z.ltb_spec (Z.of_nat k) (0 + Z.of_nat n));
      try lia. cbn [andb].
    rewrite nth_indep with (d' := Z.of_nat 0 + 1)
      by (rewrite length_map, length_seq; assumption).
    rewrite (map_nth (fun k => Z.of_nat k + 1) (seq 0 n) 0%nat k).
    rewrite seq_nth by assumption. reflexivity.
Qed.

Lemma fill_candidates (n : nat) :
  candidates (Z.of_nat n) (fill (repeat 0 n) (Z.of_nat n)).
Proof.
  rewrite fill_spec. repeat split.
  - rewrite length_map, length_seq. reflexivity.
  - apply Injective_map_NoDup; [|apply seq_NoDup].
    intros a b H. lia.
  - apply Forall_forall. intros v Hv. apply in_map_iff in Hv.
    destruct Hv as (k & <- & Hk). apply in_seq in Hk. lia.
Qed.

Lemma get_swap (arr : list Z) (a b k : Z) :
  0 <= a < Z.of_nat (length arr) -> 0 <= b < Z.of_nat (length arr) -> 0 <= k ->
  get 0 (swap arr a b) k
  = get 0 arr (if k =? b then a else if k =? a then b else k).
Proof.
  intros Ha Hb Hk. unfold swap.
  rewrite get_upd by (rewrite ?length_upd; lia).
  destruct (Z.eqb_spec k b); [reflexivity|].
  rewrite get_upd by lia. destruct (k =? a); reflexivity.
Qed.

Lemma length_swap (arr : list Z) (a b : Z) : length (swap arr a b) = length arr.
Proof. unfold swap. rewrite !length_upd. reflexivity. Qed.

(** Exchanging two elements of an array permutes it. *)
Lemma swap_perm (arr : list Z) (a b : Z) :
  0 <= a < Z.of_nat (length arr) -> 0 <= b < Z.of_nat (length arr) ->
  Permutation arr (swap arr a b).
Proof.
  intros Ha Hb. apply (Permutation_nth arr (swap arr a b) 0).
  split; [apply length_swap|].
  exists (fun k => if Nat.eqb k (Z.to_nat b) then Z.to_nat a
                   else if Nat.eqb k (Z.to_nat a) then Z.to_nat b else k).
  split; [|split].
  - intros k Hk.
    destruct (Nat.eqb_spec k (Z.to_nat b)); [lia|].
    destruct (Nat.eqb_spec k (Z.to_nat a)); lia.
  - intros i j Hi Hj.
    destruct (Nat.eqb_spec i (Z.to_nat b)), (Nat.eqb_spec j (Z.to_nat b)),
      (Nat.eqb_spec i (Z.to_nat a)), (Nat.eqb_spec j (Z.to_nat a)); lia.
  - intros k Hk. rewrite <- !get_nth, get_swap by lia.
    f_equal.
    destruct (Z.eqb_spec (Z.of_nat k) b), (Nat.eqb_spec k (Z.to_nat b)); try lia.
    destruct (Z.eqb_spec (Z.of_nat k) a), (Nat.eqb_spec k (Z.to_nat a)); lia.
Qed.

Lemma candidates_perm (n : Z) (arr arr' : list Z) :
  Permutation arr arr' -> candidates n arr -> candidates n arr'.
Proof.
  intros Hp (Hl & Hn & Hf). repeat split.
  - rewrite <- (Permutation_length Hp). assumption.
  - exact (Permutation_NoDup Hp Hn).
  - exact (Permutation_Forall Hp Hf).
Qed.

Section Sampler.

Variable rand : nat -> Z.

(** [rand()] returns a value between 0 and [RAND_MAX]. *)
Hypothesis rand_range : forall c, 0 <= rand c <= RAND_MAX.

Lemma shuffle_loop_candidates (n : Z) (i : nat) :
  forall arr c, Z.of_nat i < n -> candidates n arr ->
  candidates n (fst (shuffle_loop rand i arr c))
  /\ snd (shuffle_loop rand i arr c) = (c + i)%nat.
Proof.
  induction i as [|i IH]; intros arr c Hi Hc.
  - cbn. split; [assumption | lia].
  - cbn [shuffle_loop].
    pose proof (Z.rem_bound_pos (rand c) (Z.of_nat (S i) + 1)
                  (proj1 (rand_range c)) ltac:(lia)) as Hj.
    destruct Hc as (Hl & Hc).
    destruct (IH (swap arr (Z.rem (rand c) (Z.of_nat (S i) + 1)) (Z.of_nat (S i))) (S c))
      as [H1 H2]; [lia | |].
    + apply candidates_perm with (arr := arr); [|split; assumption].
      apply swap_perm; lia.
    + split; [assumption | lia].
Qed.

Lemma shuffle_candidates (n : Z) (arr : list Z) (c : nat) :
  candidates n arr ->
  candidates n (fst (shuffle rand arr n c)).
Proof.
  intros Hc. unfold shuffle.
  destruct (Z.le_gt_cases n 0) as [Hn|Hn].
  - replace (Z.to_nat (n - 1)) with 0%nat by lia. assumption.
  - apply shuffle_loop_candidates; [lia | assumption].
Qed.

End Sampler.

Lemma qsort_insert_perm (compar : Z -> Z -> Z) (v : Z) (l : list Z) :
  Permutation (v :: l) (qsort_insert compar v l).
Proof.
  induction l as [|h t IH]; cbn [qsort_insert]; [apply Permutation_refl|].
  destruct (compar v h <=? 0); [apply Permutation_refl|].
  apply perm_trans with (h :: v :: t); [apply perm_swap|].
  apply perm_skip. exact IH.
Qed.

Lemma insertion_sort_perm (compar : Z -> Z -> Z) (l : list Z) :
  Permutation l (fold_right (qsort_insert compar) [] l).
Proof.
  induction l as [|h t IH]; cbn [fold_right]; [apply perm_nil|].
  apply perm_trans with (h :: fold_right (qsort_insert compar) [] t).
  - apply perm_skip. exact IH.
  - apply qsort_insert_perm.
Qed.

(** On values of [[1, n]] the difference does not overflow, and its sign
    orders them. *)
Lemma int_qsort_compar_le (n a b : Z) :
  n <= CInt.INT_MAX -> 1 <= a <= n -> 1 <= b <= n ->
  (int_qsort_compar a b <=? 0) = (a <=? b).
Proof.
  intros Hn Ha Hb. unfold int_qsort_compar, CInt.sub.
  rewrite wrap_small by (unfold CInt.INT_MIN, CInt.INT_MAX in *; lia).
  destruct (Z.leb_spec (a - b) 0), (Z.leb_spec a b); lia || reflexivity.
Qed.

Lemma qsort_insert_sorted (n v : Z) (l : list Z) :
  n <= CInt.INT_MAX -> 1 <= v <= n -> Forall (fun w => 1 <= w <= n) l ->
  Sorted Z.le l -> Sorted Z.le (qsort_insert int_qsort_compar v l).
Proof.
  intros Hn Hv Hf Hs. induction Hs as [|h t Ht IH Hhd]; cbn [qsort_insert].
  - repeat constructor.
  - inversion Hf as [|? ? Hh Hft]; subst.
    rewrite (int_qsort_compar_le n) by assumption.
    destruct (Z.leb_spec v h) as [Hle|Hgt].
    + constructor; [constructor; assumption|]. constructor. assumption.
    + constructor; [apply IH; assumption|].
      destruct t as [|h' t']; cbn [qsort_insert].
      * constructor. lia.
      * inversion Hft; subst. rewrite (int_qsort_compar_le n) by assumption.
        inversion Hhd; subst.
        destruct (Z.leb_spec v h'); constructor; lia.
Qed.

Lemma insertion_sort_sorted (n : Z) (l : list Z) :
  n <= CInt.INT_MAX -> Forall (fun w => 1 <= w <= n) l ->
  Sorted Z.le (fold_right (qsort_insert int_qsort_compar) [] l).
Proof.
  intros Hn Hf. induction Hf as [|h t Hh Ht IH]; cbn [fold_right]; [constructor|].
  apply (qsort_insert_sorted n); try assumption.
  exact (Permutation_Forall (insertion_sort_perm _ t) Ht).
Qed.

Lemma sorted_nodup_strict (l : list Z) :
  Sorted Z.le l -> NoDup l -> StronglySorted Z.lt l.
Proof.
  intros Hs Hn. apply Sorted_StronglySorted in Hs; [|intros a b c; apply Z.le_trans].
  induction Hs as [|a l Hl IH Hfa]; [constructor|].
  inversion Hn as [|? ? Hnin Hn']; subst.
  constructor; [apply IH; assumption|].
  apply Forall_forall. intros b Hb.
  pose proof (proj1 (Forall_forall _ _) Hfa b Hb) as Hle.
  assert (a <> b) by (intros ->; contradiction). lia.
Qed.

Lemma strongly_sorted_nth (l : list Z) (d : Z) :
  StronglySorted Z.lt l ->
  forall i j, (i < j < length l)%nat -> nth i l d < nth j l d.
Proof.
  induction 1 as [|a l Hl IH Hfa]; intros i j Hij; [cbn in Hij; lia|].
  destruct j as [|j]; [lia|]. cbn [length] in Hij.
  destruct i as [|i]; cbn [nth].
  - apply (proj1 (Forall_forall _ _) Hfa). apply nth_In. lia.
  - apply IH. lia.
Qed.

Lemma get_qsort_prefix (arr : list Z) (k : nat) (compar : Z -> Z -> Z) (j : nat) :
  (j < k <= length arr)%nat ->
  get 0 (qsort arr (Z.of_nat k) compar) (Z.of_nat j)
  = nth j (fold_right (qsort_insert compar) [] (firstn k arr)) 0.
Proof.
  intros Hj. rewrite get_nth. unfold qsort. rewrite Nat2Z.id.
  apply app_nth1.
  rewrite <- (Permutation_length (insertion_sort_perm compar (firstn k arr))).
  rewrite length_firstn. lia.
Qed.

(** The first [k] candidates, sorted: [k] positions of [[1, n]] in strictly
    increasing order. *)
Lemma sorted_prefix (n : Z) (arr : list Z) (k : nat) :
  n <= CInt.INT_MAX -> candidates n arr -> Z.of_nat k <= n ->
  let s := fold_right (qsort_insert int_qsort_compar) [] (firstn k arr) in
  length s = k /\ StronglySorted Z.lt s /\ Forall (fun v => 1 <= v <= n) s.
Proof.
  intros Hn (Hl & Hnd & Hf) Hk s.
  pose proof (insertion_sort_perm int_qsort_compar (firstn k arr)) as Hp. fold s in Hp.
  rewrite <- (firstn_skipn k arr) in Hnd, Hf.
  apply NoDup_app_remove_r in Hnd. apply Forall_app in Hf. destruct Hf as [Hf _].
  split; [|split].
  - rewrite <- (Permutation_length Hp), length_firstn. lia.
  - apply sorted_nodup_strict.
    + apply (insertion_sort_sorted n); assumption.
    + exact (Permutation_NoDup Hp Hnd).
  - exact (Permutation_Forall Hp Hf).
Qed.

(* ================================================================== *)
(** * The control points [randwave_generate] builds *)
(* ================================================================== *)

Lemma to_int_range (x : spec_float) : CInt.INT_MIN <= to_int x <= CInt.INT_MAX.
Proof.
  unfold to_int. destruct (trunc x) as [z|]; [|unfold CInt.INT_MIN, CInt.INT_MAX; lia].
  destruct (Z.leb_spec CInt.INT_MIN z), (Z.leb_spec z CInt.INT_MAX); cbn [andb];
    unfold CInt.INT_MIN, CInt.INT_MAX in *; lia.
Qed.

Section ControlPoints.

Variable rand : nat -> Z.

Lemma place_points_loop (all_samples : list Z) (n : nat) :
  forall (lo : Z) (pts : list sample_amplitude_pair) (c : nat),
  0 <= lo -> lo + Z.of_nat n <= Z.of_nat (length pts) ->
  let r := for_loop n lo
             (fun i st =>
                (upd (fst st) i
                     (mk_pair (get 0 all_samples (i - 1))
                              (random_amplitude (rand (snd st)))),
                 S (snd st)))
             (pts, c) in
  length (fst r) = length pts
  /\ forall j, 0 <= j ->
     get no_point (fst r) j
     = if (lo <=? j) && (j <? lo + Z.of_nat n)
       then mk_pair (get 0 all_samples (j - 1))
                    (random_amplitude (rand (c + Z.to_nat (j - lo))))
       else get no_point pts j.
Proof.
  induction n as [|n IH]; intros lo pts c Hlo Hlen r.
  - subst r. cbn. split; [reflexivity|]. intros j Hj.
    destruct (Z.leb_spec lo j), (Z.ltb_spec j (lo + 0)); cbn; try reflexivity; lia.
  - subst r. cbn [for_loop fst snd].
    destruct (IH (lo + 1)
                 (upd pts lo (mk_pair (get 0 all_samples (lo - 1))
                                      (random_amplitude (rand c))))
                 (S c)) as [Hl Hg]; [lia | rewrite length_upd; lia |].
    rewrite length_upd in Hl. split; [assumption|].
    intros j Hj. rewrite Hg by assumption. rewrite get_upd by lia.
    destruct (Z.leb_spec (lo + 1) j), (Z.ltb_spec j (lo + 1 + Z.of_nat n)),
      (Z.leb_spec lo j), (Z.ltb_spec j (lo + Z.of_nat (S n))),
      (Z.eqb_spec j lo); cbn [andb]; subst; try reflexivity; try lia.
    + do 3 f_equal. lia.
    + rewrite Z.sub_diag. cbn. rewrite Nat.add_0_r. reflexivity.
Qed.

(** What the points array holds once the point loop is over: the two end
    points, and between them the sorted samples with fresh amplitudes. *)
Lemma control_points_frame (size np : Z) (c : nat) :
  2 <= np ->
  let pts := fst (control_points rand size np c) in
  let sorted := qsort (fst (shuffled_samples rand size c)) (np - 2) int_qsort_compar in
  let c1 := snd (shuffled_samples rand size c) in
  Z.of_nat (length pts) = np
  /\ get no_point pts 0 = mk_pair 0 (S754_zero false)
  /\ get no_point pts (np - 1) = mk_pair (size - 1) (S754_zero false)
  /\ forall j, 1 <= j <= np - 2 ->
     get no_point pts j
     = mk_pair (get 0 sorted (j - 1))
               (random_amplitude (rand (c1 + Z.to_nat (j - 1)))).
Proof.
  intros Hnp pts sorted c1. subst pts sorted c1.
  unfold control_points, shuffled_samples.
  destruct (shuffle rand (fill (repeat 0 (Z.to_nat (size - 2))) (size - 2)) (size - 2) c)
    as [shuffled c1]. cbn [fst snd].
  set (pts0 := upd (upd (repeat (mk_pair 0 (S754_zero false)) (Z.to_nat np)) 0
                        (mk_pair 0 (of_int 0)))
                   (np - 1) (mk_pair (size - 1) (of_int 0))).
  assert (Hlen0 : Z.of_nat (length pts0) = np)
    by (subst pts0; rewrite !length_upd, repeat_length; lia).
  unfold place_points.
  destruct (place_points_loop (qsort shuffled (np - 2) int_qsort_compar)
              (Z.to_nat (np - 2)) 1 pts0 c1) as [Hl Hg]; [lia | lia |].
  cbv zeta in Hl, Hg.
  set (pts := fst (for_loop _ _ _ _)) in *.
  assert (Hget0 : forall j, 0 <= j < np ->
            get no_point pts0 j
            = if j =? np - 1 then mk_pair (size - 1) (S754_zero false)
              else if j =? 0 then mk_pair 0 (S754_zero false) else no_point).
  { intros j Hj. subst pts0.
    rewrite get_upd by (rewrite ?length_upd, ?repeat_length; lia).
    destruct (Z.eqb_spec j (np - 1)); [reflexivity|].
    rewrite get_upd by (rewrite ?repeat_length; lia).
    destruct (Z.eqb_spec j 0); [reflexivity|].
    apply get_repeat. lia. }
  split; [rewrite Hl; assumption|].
  split; [|split].
  - rewrite Hg by lia. cbn [Z.leb andb]. rewrite Hget0 by lia.
    destruct (Z.eqb_spec 0 (np - 1)); [lia | reflexivity].
  - rewrite Hg by lia.
    destruct (Z.leb_spec 1 (np - 1)), (Z.ltb_spec (np - 1) (1 + Z.of_nat (Z.to_nat (np - 2))));
      try lia; cbn [andb]; rewrite Hget0 by lia; rewrite Z.eqb_refl; reflexivity.
  - intros j Hj. rewrite Hg by lia.
    destruct (Z.leb_spec 1 j), (Z.ltb_spec j (1 + Z.of_nat (Z.to_nat (np - 2))));
      try lia; reflexivity.
Qed.

Hypothesis rand_range : forall c, 0 <= rand c <= RAND_MAX.

(** The sorted samples: [np - 2] positions of [[1, size - 2]], strictly
    increasing. *)
Lemma sorted_samples_spec (size np : Z) (c : nat) :
  2 <= np <= size -> size <= CInt.INT_MAX ->
  let sorted := qsort (fst (shuffled_samples rand size c)) (np - 2) int_qsort_compar in
  (forall i j, 0 <= i -> i < j -> j < np - 2 -> get 0 sorted i < get 0 sorted j)
  /\ (forall j, 0 <= j < np - 2 -> 1 <= get 0 sorted j <= size - 2).
Proof.
  intros Hnp Hsize sorted. subst sorted. unfold shuffled_samples.
  pose proof (fill_candidates (Z.to_nat (size - 2))) as Hfill.
  rewrite Z2Nat.id in Hfill by lia.
  pose proof (shuffle_candidates rand rand_range (size - 2) _ c Hfill) as Hsh.
  set (shuffled := fst (shuffle rand _ _ _)) in *.
  destruct (sorted_prefix (size - 2) shuffled (Z.to_nat (np - 2)))
    as (Hsl & Hss & Hsf); [lia | assumption | lia |].
  assert (Hq : forall j, 0 <= j < np - 2 ->
            get 0 (qsort shuffled (np - 2) int_qsort_compar) j
            = nth (Z.to_nat j)
                  (fold_right (qsort_insert int_qsort_compar) []
                              (firstn (Z.to_nat (np - 2)) shuffled)) 0).
  { intros j Hj.
    pose proof (get_qsort_prefix shuffled (Z.to_nat (np - 2)) int_qsort_compar
                  (Z.to_nat j)) as Hq.
    rewrite !Z2Nat.id in Hq by lia.
    apply Hq. destruct Hsh as (Hlsh & _). lia. }
  split.
  - intros i j Hi Hij Hj. rewrite !Hq by lia.
    apply strongly_sorted_nth; [assumption | lia].
  - intros j Hj. rewrite Hq by lia.
    apply (proj1 (Forall_forall _ _) Hsf). apply nth_In. lia.
Qed.

End ControlPoints.

(* ================================================================== *)
(** * [randwave_generate] as a whole *)
(* ================================================================== *)

Lemma post_points_only (pts : list sample_amplitude_pair) (np : Z) :
  Forall is_post_point (post_points pts np).
Proof.
  unfold post_points. apply for_loop_invariant; [|constructor].
  intros i log _ Hlog. apply Forall_app. split; [assumption|].
  repeat constructor.
Qed.

Lemma not_in_post_points (m : message) (pts : list sample_amplitude_pair) (np : Z) :
  ~ is_post_point m -> ~ In m (post_points pts np).
Proof.
  intros Hm Hin. apply Hm.
  exact (proj1 (Forall_forall _ _) (post_points_only pts np) m Hin).
Qed.

Lemma in_generate_log (m : message) (l : list message)
      (pts : list sample_amplitude_pair) (np : Z) :
  ~ is_post_point m -> m <> PostGenerated ->
  In m ((l ++ post_points pts np) ++ [PostGenerated]) <-> In m l.
Proof.
  intros Hm Hg. pose proof (not_in_post_points m pts np Hm) as Hn.
  rewrite !in_app_iff. cbn [In]. split; [|tauto].
  intros [[H|H]|[H|[]]]; [assumption | contradiction | congruence].
Qed.

Section Generate.

Variables c_sin c_tan : double -> double.
Variable rand : nat -> Z.

Lemma generate_returns (x : t_randwave) (c : nat) (ws nip : float) :
  2 <= effective_size ws ->
  2 <= effective_points nip <= effective_size ws ->
  exists log,
    randwave_generate c_sin c_tan rand x c ws nip
    = Returns (log,
               generated_object c_sin c_tan rand x c (effective_size ws) (effective_points nip),
               snd (control_points rand (effective_size ws) (effective_points nip) c))
    /\ (In ErrInvalidSampleCount log <-> flt ws (of_int 0) = true)
    /\ (In ErrInvalidNumPoints log <-> bad_count ws nip = true).
Proof.
  intros Hs Hnp. unfold randwave_generate, generated_object.
  fold (bad_count ws nip). fold (effective_size ws). fold (effective_points nip).
  destruct (Z.ltb_spec (effective_size ws - 2) 0); [lia|].
  destruct (Z.ltb_spec (effective_points nip) 2); [lia|].
  destruct (Z.ltb_spec (effective_size ws) (effective_points nip)); [lia|].
  cbn [orb].
  destruct (control_points rand (effective_size ws) (effective_points nip) c)
    as [pts c'] eqn:Hcp. cbn [fst snd].
  eexists. split; [reflexivity|].
  rewrite !in_generate_log by (cbn; intuition discriminate).
  destruct (flt ws (of_int 0)), (bad_count ws nip); cbn [app In];
    intuition (discriminate || auto).
Qed.

Lemma generate_undefined (x : t_randwave) (c : nat) (ws nip : float) :
  effective_size ws < 2 \/ effective_points nip < 2
  \/ effective_size ws < effective_points nip ->
  randwave_generate c_sin c_tan rand x c ws nip = Undefined.
Proof.
  intros H. unfold randwave_generate.
  fold (bad_count ws nip). fold (effective_size ws). fold (effective_points nip).
  destruct (Z.ltb_spec (effective_size ws - 2) 0); [reflexivity|].
  destruct (Z.ltb_spec (effective_points nip) 2); [reflexivity|].
  destruct (Z.ltb_spec (effective_size ws) (effective_points nip)); [reflexivity|].
  lia.
Qed.

Lemma generate_returns_inv (x x' : t_randwave) (c c' : nat) (ws nip : float)
      (log : list message) :
  randwave_generate c_sin c_tan rand x c ws nip = Returns (log, x', c') ->
  2 <= effective_size ws
  /\ 2 <= effective_points nip <= effective_size ws
  /\ x' = generated_object c_sin c_tan rand x c (effective_size ws) (effective_points nip).
Proof.
  intros H.
  destruct (Z.lt_ge_cases (effective_size ws) 2) as [Hs|Hs];
    [rewrite generate_undefined in H by lia; discriminate|].
  destruct (Z.lt_ge_cases (effective_points nip) 2) as [Hp|Hp];
    [rewrite generate_undefined in H by lia; discriminate|].
  destruct (Z.lt_ge_cases (effective_size ws) (effective_points nip)) as [Hq|Hq];
    [rewrite generate_undefined in H by lia; discriminate|].
  destruct (generate_returns x c ws nip ltac:(lia) ltac:(lia)) as (log' & Hr & _).
  rewrite Hr in H. injection H as _ <- _. repeat split; lia.
Qed.

End Generate.

(* ================================================================== *)
(** * The playback engine: phase, increment, termination *)
(* ================================================================== *)






(** C10 -- Termination of a block.  For a block of at least one sample and
    a table of at least one sample, each adjustment loop leaves after
    finitely many rounds with an index below the table size (first loop)
    and at least 0 (second loop), and [randwave_perform] returns.  With a
    table size of 0 it does not return, whatever the fuel. *)
Theorem perform_terminates :
  forall (x : t_randwave) (frequency : list float) (n : Z),
  1 <= n <= CInt.INT_MAX ->
  (1 <= wavetable_size x ->
     (forall i, exists fuel0 i', i' < wavetable_size x /\
        forall fuel, (fuel0 <= fuel)%nat -> wrap_high fuel (wavetable_size x) i = Some i')
     /\ (forall i, exists fuel0 i', 0 <= i' /\
        forall fuel, (fuel0 <= fuel)%nat -> wrap_low fuel (wavetable_size x) i = Some i')
     /\ exists fuel0 result, forall fuel, (fuel0 <= fuel)%nat ->
        randwave_perform fuel x frequency n = Some result)
  /\ (wavetable_size x = 0 ->
      forall fuel, randwave_perform fuel x frequency n = None).
Proof.
  intros x frequency n Hn. split.
  - intros Hs. split; [|split].
    + intros i. exists (S (Z.to_nat (Z.abs i + 1))). eexists. split.
      2:{ intros fuel Hf.
          apply wrap_high_more_fuel with (f := S (Z.to_nat (Z.abs i + 1))); [|assumption].
          apply wrap_high_steps; [assumption | nia]. }
      destruct (Z.ltb_spec i (wavetable_size x)); [assumption|].
      apply Z.mod_pos_bound. lia.
    + intros i. exists (S (Z.to_nat (Z.abs i + 1))). eexists. split.
      2:{ intros fuel Hf.
          apply wrap_low_more_fuel with (f := S (Z.to_nat (Z.abs i + 1))); [|assumption].
          apply wrap_low_steps; [assumption | nia]. }
      destruct (Z.ltb_spec i 0); [|assumption].
      apply Z.mod_pos_bound. lia.
    + destruct (fuel_above (n + 1 + advance_fuel)) as [f0 Hf0].
      exists f0. eexists. intros fuel Hf. apply perform_returns; auto; lia.
  - intros Hs fuel. apply perform_empty_table; [assumption | lia].
Qed.

Lemma perform_terminates_witness :
  (1 <= 2 <= CInt.INT_MAX /\ 1 <= wavetable_size example_object)
  /\ exists fuel0 result, forall fuel, (fuel0 <= fuel)%nat ->
       randwave_perform fuel example_object [] 2 = Some result.
Proof.
  assert (Hn : 1 <= 2 <= CInt.INT_MAX) by (unfold CInt.INT_MAX; lia).
  assert (Hs : 1 <= wavetable_size example_object) by (cbn; lia).
  split; [split; assumption|].
  exact (proj2 (proj2 (proj1 (perform_terminates example_object [] 2 Hn) Hs))).
Defined.

(* ================================================================== *)
(** * The small C library meets its contracts *)
(* ================================================================== *)

Lemma sin_poly_zero (s : bool) : sin_poly (S754_zero s) = S754_zero s.
Proof. destruct s; reflexivity. Qed.

Lemma sin_poly_nan : sin_poly S754_nan = S754_nan.
Proof. reflexivity. Qed.

Lemma tan_poly_zero (s : bool) : tan_poly (S754_zero s) = S754_zero s.
Proof. destruct s; reflexivity. Qed.

Lemma tan_poly_nan : tan_poly S754_nan = S754_nan.
Proof. reflexivity. Qed.

Lemma lcg_state_range (n : nat) : 0 <= lcg_state n < 4294967296.
Proof.
  destruct n as [|n]; cbn [lcg_state]; [lia|].
  apply Z.mod_pos_bound. lia.
Qed.

Lemma lcg_rand_range (c : nat) : 0 <= lcg_rand c <= RAND_MAX.
Proof.
  unfold lcg_rand, RAND_MAX. pose proof (lcg_state_range (S c)) as H.
  split; [apply Z.div_pos; lia|].
  apply Z.lt_succ_r. apply Z.div_lt_upper_bound; lia.
Qed.

(* ================================================================== *)
(** * The interpolator at the control points *)
(* ================================================================== *)

Section Interpolator.

Variables c_sin c_tan : double -> double.
Hypothesis sin_zero : forall s, c_sin (S754_zero s) = S754_zero s.
Hypothesis sin_nan : c_sin S754_nan = S754_nan.
Hypothesis tan_zero : forall s, c_tan (S754_zero s) = S754_zero s.
Hypothesis tan_nan : c_tan S754_nan = S754_nan.

(** C2 -- The cardinal function at 0.  [trig_cardinal] has no case for
    [x = 0]: its only special case tests [N == 0].  For every [N >= 1] the
    call at [x = 0] evaluates [sin(0) / (N * sin(0))] (odd [N]) or
    [sin(0) / (N * tan(0))] (even [N]), the quotient [0 / 0], and returns a
    NaN, not 1. *)
Theorem trig_cardinal_at_zero :
  forall (s : bool) (N : Z), 1 <= N ->
  trig_cardinal c_sin c_tan (S754_zero s) N = S754_nan
  /\ SFeqb (trig_cardinal c_sin c_tan (S754_zero s) N) (of_int 1) = false.
Proof.
  intros s N HN.
  rewrite (trig_cardinal_nan c_sin c_tan sin_zero sin_nan tan_zero tan_nan)
    by (exact I || lia).
  split; reflexivity.
Qed.

(** C1 -- The table at a control point.  For every table, every set of
    points and every point [k] of it whose position lies in the table,
    [trig_interp] stores a NaN at that position: the term of the point
    itself is [amplitude * trig_cardinal(0, N)], a NaN, and the sum never
    recovers.  The stored value compares unequal to the amplitude of the
    point, and to every other number. *)
Theorem trig_interp_at_control_point :
  forall (table : list float) (size : Z) (pts : list sample_amplitude_pair)
         (num_points k : Z),
  0 <= k < num_points ->
  0 <= sample (get no_point pts k) < size ->
  size <= Z.of_nat (length table) ->
  let stored := get (S754_zero false)
                    (trig_interp c_sin c_tan table size pts num_points)
                    (sample (get no_point pts k)) in
  stored = S754_nan
  /\ SFeqb stored (amplitude (get no_point pts k)) = false.
Proof.
  intros table size pts num_points k Hk Hpos Hlen stored. subst stored.
  unfold no_point in *.
  rewrite trig_interp_get by assumption.
  rewrite (interp_sum_at_point c_sin c_tan sin_zero sin_nan tan_zero tan_nan
             size pts num_points _ k Hk eq_refl).
  split; reflexivity.
Qed.

(** C3 -- The samples of a generated table.  Whenever [randwave_generate]
    returns, the first sample of the table it has built is a NaN and so
    lies outside [-1, 1]: index 0 carries the first control point, and the
    hard limiter lets a NaN through because both of its comparisons are
    false. *)
Theorem generated_table_holds_nan :
  forall (rand : nat -> Z) (x x' : t_randwave) (c c' : nat) (ws nip : float)
         (log : list message),
  randwave_generate c_sin c_tan rand x c ws nip = Returns (log, x', c') ->
  get (S754_zero false) (wavetable x') 0 = S754_nan
  /\ ~ in_unit_interval (get (S754_zero false) (wavetable x') 0)
  /\ hard_limit S754_nan = S754_nan.
Proof.
  intros rand x x' c c' ws nip log H.
  apply generate_returns_inv in H. destruct H as (Hs & Hnp & ->).
  unfold generated_object. cbn [wavetable].
  destruct (control_points_frame rand (effective_size ws) (effective_points nip) c)
    as (Hlen & H0 & _); [lia|].
  assert (Hnan : get (S754_zero false)
                   (trig_interp c_sin c_tan
                      (repeat (S754_zero false) (Z.to_nat (effective_size ws)))
                      (effective_size ws)
                      (fst (control_points rand (effective_size ws) (effective_points nip) c))
                      (effective_points nip)) 0 = S754_nan).
  { rewrite trig_interp_get by (rewrite ?repeat_length; lia).
    rewrite (interp_sum_at_point c_sin c_tan sin_zero sin_nan tan_zero tan_nan
               _ _ _ 0 0); [reflexivity | lia |].
    unfold no_point in H0. rewrite H0. reflexivity. }
  rewrite Hnan. split; [reflexivity|]. split; [apply nan_not_in_unit_interval | reflexivity].
Qed.

End Interpolator.

Lemma trig_cardinal_at_zero_witness :
  1 <= 6
  /\ trig_cardinal sin_poly tan_poly (S754_zero false) 6 = S754_nan.
Proof.
  split; [lia|].
  apply (trig_cardinal_at_zero sin_poly tan_poly
           sin_poly_zero sin_poly_nan tan_poly_zero tan_poly_nan false 6).
  lia.
Defined.

Lemma trig_interp_at_control_point_witness :
  (0 <= 1 < 4 /\ 0 <= sample (get no_point example_points 1) < 8
   /\ 8 <= Z.of_nat (length (repeat (S754_zero false) 8)))
  /\ get (S754_zero false)
         (trig_interp sin_poly tan_poly (repeat (S754_zero false) 8) 8 example_points 4)
         2 = S754_nan.
Proof.
  assert (H1 : 0 <= 1 < 4) by lia.
  assert (H2 : 0 <= sample (get no_point example_points 1) < 8) by (change (0 <= 2 < 8); lia).
  assert (H3 : 8 <= Z.of_nat (length (repeat (S754_zero false) 8))) by (cbn; lia).
  split; [exact (conj H1 (conj H2 H3))|].
  exact (proj1 (trig_interp_at_control_point sin_poly tan_poly
                  sin_poly_zero sin_poly_nan tan_poly_zero tan_poly_nan
                  (repeat (S754_zero false) 8) 8 example_points 4 1 H1 H2 H3)).
Defined.

Lemma generated_table_holds_nan_witness :
  exists log x' c',
    randwave_generate sin_poly tan_poly lcg_rand randwave_new 0 (of_int 16) (of_int 2)
    = Returns (log, x', c')
    /\ get (S754_zero false) (wavetable x') 0 = S754_nan.
Proof.
  destruct (generate_returns sin_poly tan_poly lcg_rand randwave_new 0
              (of_int 16) (of_int 2)) as (log & Heq & _).
  - change (2 <= 16). lia.
  - change (2 <= 4 <= 16). lia.
  - eexists _, _, _. split; [exact Heq|].
    exact (proj1 (generated_table_holds_nan sin_poly tan_poly
                    sin_poly_zero sin_poly_nan tan_poly_zero tan_poly_nan
                    lcg_rand _ _ _ _ _ _ _ Heq)).
Defined.

(* ================================================================== *)
(** * The parameters of [randwave_generate] *)
(* ================================================================== *)

Lemma in_unit_interval_zero (s : bool) : in_unit_interval (S754_zero s).
Proof. exists 0%Q. split; [reflexivity|]. split; discriminate. Qed.

(** The control points of a call, in terms of what its arguments convert
    to: [size] is [(int) wavetable_size] and [k + 2] is
    [(int) (num_interp_points + 2)]. *)
Lemma generate_control_points_at :
  forall (c_sin c_tan : double -> double) (rand : nat -> Z),
  (forall c, 0 <= rand c <= RAND_MAX) ->
  forall (x : t_randwave) (c : nat) (ws nip : float) (size k : Z),
  flt ws (of_int 0) = false -> to_int ws = size ->
  to_int (fadd nip (of_int 2)) = k + 2 ->
  4 <= size -> 1 <= k <= size - 2 ->
  exists log x' c',
    randwave_generate c_sin c_tan rand x c ws nip = Returns (log, x', c')
    /\ num_points x' = k + 2
    /\ control_point_set size k (points x').
Proof.
  intros c_sin c_tan rand Hrand x c ws nip size k Hws Hsz Hnp Hsize Hk.
  assert (Hes : effective_size ws = size) by (unfold effective_size; rewrite Hws; exact Hsz).
  assert (Hep : effective_points nip = k + 2) by exact Hnp.
  assert (Hmax : size <= CInt.INT_MAX) by (rewrite <- Hsz; apply to_int_range).
  destruct (generate_returns c_sin c_tan rand x c ws nip) as (log & Heq & _);
    [lia | lia |].
  rewrite Hes, Hep in Heq.
  destruct (control_points_frame rand size (k + 2) c) as (Hlen & H0 & Hlast & Hin); [lia|].
  destruct (sorted_samples_spec rand Hrand size (k + 2) c) as (Hinc & Hrng); [lia | lia |].
  replace (k + 2 - 1) with (k + 1) in Hlast by ring.
  replace (k + 2 - 2) with k in Hin, Hinc, Hrng by ring.
  set (pts := fst (control_points rand size (k + 2) c)) in *.
  set (sorted := qsort (fst (shuffled_samples rand size c)) k int_qsort_compar) in *.
  assert (Hsample : forall i, 0 <= i <= k + 1 ->
            sample (get no_point pts i)
            = if i =? 0 then 0 else if i =? k + 1 then size - 1 else get 0 sorted (i - 1)).
  { intros i Hi.
    destruct (Z.eqb_spec i 0) as [->|Hi0]; [rewrite H0; reflexivity|].
    destruct (Z.eqb_spec i (k + 1)) as [->|Hi1]; [rewrite Hlast; reflexivity|].
    rewrite Hin by lia. reflexivity. }
  assert (Hstrict : forall i j, 0 <= i -> i < j -> j <= k + 1 ->
            sample (get no_point pts i) < sample (get no_point pts j)).
  { intros i j Hi Hij Hj. rewrite !Hsample by lia.
    destruct (Z.eqb_spec j 0); [lia|].
    destruct (Z.eqb_spec i (k + 1)); [lia|].
    destruct (Z.eqb_spec i 0), (Z.eqb_spec j (k + 1)); try lia.
    - pose proof (Hrng (j - 1) ltac:(lia)). lia.
    - pose proof (Hrng (i - 1) ltac:(lia)). lia.
    - apply Hinc; lia. }
  exists log, (generated_object c_sin c_tan rand x c size (k + 2)),
    (snd (control_points rand size (k + 2) c)).
  unfold generated_object, control_point_set. cbn [points num_points]. fold pts.
  split; [exact Heq|]. split; [reflexivity|]. split; [exact Hlen|].
  split; [exact H0|]. split; [exact Hlast|]. split; [exact Hstrict|].
  split; [|split].
  - apply (NoDup_nth _ 0). rewrite length_map. intros a b Ha Hb Hab.
    change 0 with (sample no_point) in Hab. rewrite !map_nth, <- !get_nth in Hab.
    destruct (Nat.lt_trichotomy a b) as [Hlt|[Heq'|Hgt]]; [|assumption|].
    + pose proof (Hstrict (Z.of_nat a) (Z.of_nat b)). lia.
    + pose proof (Hstrict (Z.of_nat b) (Z.of_nat a)). lia.
  - intros i Hi. rewrite Hsample by lia.
    destruct (Z.eqb_spec i 0), (Z.eqb_spec i (k + 1)); try lia.
    apply Hrng. lia.
  - apply Forall_forall. intros p Hp.
    destruct (In_nth _ _ no_point Hp) as (a & Ha & <-). rewrite <- get_nth.
    destruct (Z.eq_dec (Z.of_nat a) 0) as [Ha0|Ha0];
      [rewrite Ha0, H0; apply in_unit_interval_zero|].
    destruct (Z.eq_dec (Z.of_nat a) (k + 1)) as [Ha1|Ha1];
      [rewrite Ha1, Hlast; apply in_unit_interval_zero|].
    rewrite Hin by lia.
    apply random_amplitude_in_range, Hrand.
Qed.



(** Whatever the verdict on the requested count, the number of points a
    returning call settles on is the requested count plus 2: the default
    stored on the invalid branch is overwritten by the next statement. *)
Lemma generate_num_points (c_sin c_tan : double -> double) (rand : nat -> Z)
      (x x' : t_randwave) (c c' : nat) (ws nip : float) (log : list message) :
  randwave_generate c_sin c_tan rand x c ws nip = Returns (log, x', c') ->
  num_points x' = to_int (fadd nip (of_int 2)).
Proof.
  intros H. apply generate_returns_inv in H. destruct H as (_ & _ & ->). reflexivity.
Qed.

(** C4 -- Substitution of the default count.  The call [generate(16, 0)]
    requests 0 interior points: the diagnostic "Invalid number of
    interpolation points. Using default (4) instead." is emitted, yet the
    object ends up with 0 + 2 = 2 points, not the 4 + 2 = 6 of the
    default. *)
Theorem generate_zero_count_keeps_two_points :
  forall (c_sin c_tan : double -> double) (rand : nat -> Z) (x : t_randwave) (c : nat),
  exists log x' c',
    randwave_generate c_sin c_tan rand x c (of_int 16) (of_int 0) = Returns (log, x', c')
    /\ In ErrInvalidNumPoints log
    /\ num_points x' = 2
    /\ num_points x' <> DEFAULT_NUM_INTERP_POINTS + 2.
Proof.
  intros c_sin c_tan rand x c.
  destruct (generate_returns c_sin c_tan rand x c (of_int 16) (of_int 0))
    as (log & Heq & _ & Hcount).
  - change (2 <= 16). lia.
  - change (2 <= 2 <= 16). lia.
  - eexists _, _, _. split; [exact Heq|]. split; [apply Hcount; reflexivity|].
    split; [reflexivity|]. cbn [generated_object num_points].
    change (2 <> 6). lia.
Qed.

(** A negative table size is replaced by the default: the diagnostic is
    emitted and, when the number of points fits, the call returns with a
    table of 2048 samples. *)
Lemma generate_negative_size (c_sin c_tan : double -> double) (rand : nat -> Z)
      (x : t_randwave) (c : nat) (ws nip : float) :
  flt ws (of_int 0) = true ->
  2 <= effective_points nip <= DEFAULT_WAVETABLE_SIZE ->
  exists log x' c',
    randwave_generate c_sin c_tan rand x c ws nip = Returns (log, x', c')
    /\ In ErrInvalidSampleCount log
    /\ wavetable_size x' = 2048
    /\ length (wavetable x') = 2048%nat.
Proof.
  intros Hneg Hnp.
  assert (Hes : effective_size ws = 2048) by (unfold effective_size; rewrite Hneg; reflexivity).
  unfold DEFAULT_WAVETABLE_SIZE in Hnp.
  destruct (generate_returns c_sin c_tan rand x c ws nip) as (log & Heq & Hsize & _);
    [lia | lia |].
  eexists _, _, _. split; [exact Heq|]. split; [apply Hsize; assumption|].
  unfold generated_object. cbn [wavetable_size wavetable]. split; [exact Hes|].
  rewrite trig_interp_length by (rewrite repeat_length; lia).
  rewrite repeat_length, Hes. reflexivity.
Qed.

(** C8 -- A negative table size.  The call [generate(-5, -1)] has a
    negative table size, which is replaced by 2048, and requests -1
    interior points: the points array gets -1 + 2 = 1 element, [qsort] is
    asked to sort -1 elements, and the call does not return normally. *)
Theorem generate_negative_size_negative_count :
  forall (c_sin c_tan : double -> double) (rand : nat -> Z) (x : t_randwave) (c : nat),
  flt (of_int (-5)) (of_int 0) = true
  /\ effective_size (of_int (-5)) = DEFAULT_WAVETABLE_SIZE
  /\ effective_points (of_int (-1)) = 1
  /\ randwave_generate c_sin c_tan rand x c (of_int (-5)) (of_int (-1)) = Undefined.
Proof.
  intros c_sin c_tan rand x c.
  split; [reflexivity|]. split; [reflexivity|]. split; [reflexivity|].
  apply generate_undefined. right. left. change (1 < 2). lia.
Qed.

(* ================================================================== *)
(** * The phase across regeneration *)
(* ================================================================== *)

(** The range [0 <= phase < wavetable_size] is not kept by
    [randwave_generate]: an object with a table of 2048 samples and phase
    2000 is regenerated with 16 samples, the call returns and the phase is
    still 2000, past the end of the new table. *)
Lemma generate_keeps_stale_phase :
  ~ (forall (x x' : t_randwave) (c c' : nat) (ws nip : float) (log : list message),
       0 <= phase x < wavetable_size x ->
       randwave_generate sin_poly tan_poly lcg_rand x c ws nip = Returns (log, x', c') ->
       0 <= phase x' < wavetable_size x').
Proof.
  intros H.
  destruct (generate_returns sin_poly tan_poly lcg_rand (with_phase randwave_new 2000) 0
              (of_int 16) (of_int 2)) as (log & Heq & _).
  - change (2 <= 16). lia.
  - change (2 <= 4 <= 16). lia.
  - specialize (H (with_phase randwave_new 2000) _ _ _ _ _ _
                  ltac:(change (0 <= 2000 < 2048); lia) Heq).
    change (0 <= 2000 < 16) in H. lia.
Qed.

(** C9 -- The phase across a regeneration.  [randwave_generate] has no
    statement on [x->phase]: a call that returns leaves the phase it found.
    On a new object, [generate(100, 4)], one block of 64 samples (the phase
    ends on 28, inside the 100 samples) and [generate(16, 2)] leave the
    phase 28 with a table of 16 samples, and the next block reads its first
    sample outside the table. *)
Theorem phase_stale_after_regeneration :
  (forall (c_sin c_tan : double -> double) (rand : nat -> Z)
          (x : t_randwave) (c : nat) (ws nip : float),
     match randwave_generate c_sin c_tan rand x c ws nip with
     | Returns (_, x', _) => phase x' = phase x
     | Undefined => True
     end)
  /\ match randwave_generate sin_poly tan_poly lcg_rand randwave_new 0
                             (of_int 100) (of_int 4) with
     | Returns (_, x1, c1) =>
         match randwave_perform 200 x1 [] 64 with
         | Some (_, x2) =>
             match randwave_generate sin_poly tan_poly lcg_rand x2 c1
                                     (of_int 16) (of_int 2) with
             | Returns (_, x3, _) =>
                 (phase x2 = 28 /\ wavetable_size x2 = 100)
                 /\ (phase x3 = 28 /\ wavetable_size x3 = 16
                     /\ length (wavetable x3) = 16%nat)
                 /\ option_map fst (randwave_perform 200 x3 [] 1) = Some [None]
             | Undefined => False
             end
         | None => False
         end
     | Undefined => False
     end.
Proof.
  split.
  - intros c_sin c_tan rand x c ws nip.
    destruct (randwave_generate c_sin c_tan rand x c ws nip) as [[[log x'] c']|] eqn:H;
      [|exact I].
    apply generate_returns_inv in H. destruct H as (_ & _ & ->). reflexivity.
  - vm_compute. repeat split.
Qed.

(* ================================================================== *)
(** * Two runs of the generator *)
(* ================================================================== *)

(** [generate(16, 2)] on a new object, with the small C library: four
    points, and a table that holds a NaN wherever a point sits. *)
Example generate_16_2 :
  match randwave_generate sin_poly tan_poly lcg_rand randwave_new 0 (of_int 16) (of_int 2) with
  | Returns (log, x', c') =>
      map sample (points x') = [0; 8; 14; 15]
      /\ map (fun v => SFeqb v v) (wavetable x')
         = [false; true; true; true; true; true; true; true;
            false; true; true; true; true; true; false; false]
  | Undefined => False
  end.
Proof. vm_compute. split; reflexivity. Qed.

(** [generate(-5, 4)]: both diagnostics, six points, 2048 samples. *)
Example generate_minus_5_4 :
  forall (c_sin c_tan : double -> double) (rand : nat -> Z) (x : t_randwave) (c : nat),
  exists log x' c',
    randwave_generate c_sin c_tan rand x c (of_int (-5)) (of_int 4) = Returns (log, x', c')
    /\ In ErrInvalidSampleCount log /\ In ErrInvalidNumPoints log
    /\ num_points x' = 6 /\ wavetable_size x' = 2048
    /\ length (wavetable x') = 2048%nat.
Proof.
  intros c_sin c_tan rand x c.
  destruct (generate_returns c_sin c_tan rand x c (of_int (-5)) (of_int 4))
    as (log & Heq & Hsize & Hcount).
  - change (2 <= 2048). lia.
  - change (2 <= 6 <= 2048). lia.
  - eexists _, _, _. split; [exact Heq|].
    split; [apply Hsize; reflexivity|]. split; [apply Hcount; reflexivity|].
    split; [reflexivity|]. split; [reflexivity|].
    unfold generated_object. cbn [wavetable].
    rewrite trig_interp_length by (rewrite repeat_length; change (2048 <= 2048); lia).
    apply repeat_length.
Qed.

(* ================================================================== *)
(** * The utility functions on their own *)
(* ================================================================== *)

(** Two arrays of the same length with the same elements are the same. *)
Lemma list_eq_get {A : Type} (d : A) (l l' : list A) :
  length l = length l' ->
  (forall j, 0 <= j < Z.of_nat (length l) -> get d l j = get d l' j) ->
  l = l'.
Proof.
  intros Hlen Hget. apply nth_ext with (d := d) (d' := d); [assumption|].
  intros k Hk. rewrite <- !get_nth. apply Hget. lia.
Qed.

(** X1 -- [fill].  On an array of at least [n] elements, [fill] stores
    [i + 1] at every index [i < n], leaves the elements from index [n] on
    as they were and keeps the length; for [n <= 0] it changes nothing. *)
Theorem fill_stores_successors :
  forall (arr : list Z) (n : Z),
  n <= Z.of_nat (length arr) ->
  length (fill arr n) = length arr
  /\ (forall j, 0 <= j -> get 0 (fill arr n) j = if j <? n then j + 1 else get 0 arr j)
  /\ (n <= 0 -> fill arr n = arr).
Proof.
  intros arr n Hn. unfold fill.
  destruct (for_loop_store (fun i => i + 1) 0 (Z.to_nat n) 0 arr) as [Hl Hg]; [lia | lia |].
  split; [exact Hl|]. split.
  - intros j Hj. rewrite Hg by assumption.
    destruct (Z.leb_spec 0 j), (Z.ltb_spec j (0 + Z.of_nat (Z.to_nat n))), (Z.ltb_spec j n);
      cbn [andb]; reflexivity || lia.
  - intros H0. replace (Z.to_nat n) with 0%nat by lia. reflexivity.
Qed.

Lemma fill_stores_successors_witness :
  3 <= Z.of_nat (length [7; 7; 7; 7])
  /\ fill [7; 7; 7; 7] 3 = [1; 2; 3; 7].
Proof.
  assert (H : 3 <= Z.of_nat (length [7; 7; 7; 7])) by (cbn; lia).
  split; [exact H|].
  destruct (fill_stores_successors [7; 7; 7; 7] 3 H) as (Hl & Hg & _).
  apply (list_eq_get 0); [exact Hl|].
  intros j Hj. rewrite Hg by lia. rewrite Hl in Hj.
  assert (Hc : j = 0 \/ j = 1 \/ j = 2 \/ j = 3) by (cbn in Hj; lia).
  destruct Hc as [->|[->|[->| ->]]]; reflexivity.
Defined.

(** X2 -- [swap].  For two indices inside the array, [swap] exchanges the
    two elements and touches no other; the result is a permutation of the
    array, and swapping the same two indices again gives the array back. *)
Theorem swap_exchanges :
  forall (arr : list Z) (a b : Z),
  0 <= a < Z.of_nat (length arr) -> 0 <= b < Z.of_nat (length arr) ->
  get 0 (swap arr a b) a = get 0 arr b
  /\ get 0 (swap arr a b) b = get 0 arr a
  /\ (forall k, 0 <= k -> k <> a -> k <> b -> get 0 (swap arr a b) k = get 0 arr k)
  /\ Permutation arr (swap arr a b)
  /\ swap (swap arr a b) a b = arr.
Proof.
  intros arr a b Ha Hb.
  split; [|split; [|split; [|split]]].
  - rewrite get_swap by lia.
    destruct (Z.eqb_spec a b) as [->|Hne]; [reflexivity|].
    rewrite Z.eqb_refl. reflexivity.
  - rewrite get_swap by lia. rewrite Z.eqb_refl. reflexivity.
  - intros k Hk Hka Hkb. rewrite get_swap by lia.
    destruct (Z.eqb_spec k b); [contradiction|].
    destruct (Z.eqb_spec k a); [contradiction | reflexivity].
  - apply swap_perm; assumption.
  - apply (list_eq_get 0); [rewrite !length_swap; reflexivity|].
    intros j Hj. rewrite !length_swap in Hj.
    rewrite get_swap by (rewrite ?length_swap; lia).
    destruct (Z.eqb_spec j b) as [->|Hjb].
    + rewrite get_swap by lia.
      destruct (Z.eqb_spec a b) as [->|Hab]; [reflexivity|].
      rewrite Z.eqb_refl. reflexivity.
    + destruct (Z.eqb_spec j a) as [->|Hja].
      * rewrite get_swap by lia. rewrite Z.eqb_refl. reflexivity.
      * rewrite get_swap by lia.
        destruct (Z.eqb_spec j b); [contradiction|].
        destruct (Z.eqb_spec j a); [contradiction | reflexivity].
Qed.

Lemma swap_exchanges_witness :
  (0 <= 0 < Z.of_nat (length [10; 20; 30]) /\ 0 <= 2 < Z.of_nat (length [10; 20; 30]))
  /\ swap (swap [10; 20; 30] 0 2) 0 2 = [10; 20; 30].
Proof.
  assert (Ha : 0 <= 0 < Z.of_nat (length [10; 20; 30])) by (cbn; lia).
  assert (Hb : 0 <= 2 < Z.of_nat (length [10; 20; 30])) by (cbn; lia).
  split; [exact (conj Ha Hb)|].
  exact (proj2 (proj2 (proj2 (proj2 (swap_exchanges [10; 20; 30] 0 2 Ha Hb))))).
Defined.

(** The backwards loop of [shuffle], from index [i] down to 1, on an array
    that has an element at index [i]. *)
Lemma shuffle_loop_perm (rand : nat -> Z) (i : nat) :
  (forall c, 0 <= rand c <= RAND_MAX) ->
  forall arr c, Z.of_nat i < Z.of_nat (length arr) ->
  Permutation arr (fst (shuffle_loop rand i arr c))
  /\ snd (shuffle_loop rand i arr c) = (c + i)%nat
  /\ forall k, Z.of_nat i < k -> get 0 (fst (shuffle_loop rand i arr c)) k = get 0 arr k.
Proof.
  intros rand_range. induction i as [|i IH]; intros arr c Hi.
  - cbn. split; [apply Permutation_refl|]. split; [lia | reflexivity].
  - cbn [shuffle_loop].
    pose proof (Z.rem_bound_pos (rand c) (Z.of_nat (S i) + 1)
                  (proj1 (rand_range c)) ltac:(lia)) as Hj.
    set (j := Z.rem (rand c) (Z.of_nat (S i) + 1)) in *.
    destruct (IH (swap arr j (Z.of_nat (S i))) (S c)) as (H1 & H2 & H3);
      [rewrite length_swap; lia|].
    split; [|split].
    + apply Permutation_trans with (l' := swap arr j (Z.of_nat (S i))); [|exact H1].
      apply swap_perm; lia.
    + lia.
    + intros k Hk. rewrite H3 by lia. rewrite get_swap by lia.
      destruct (Z.eqb_spec k (Z.of_nat (S i))); [lia|].
      destruct (Z.eqb_spec k j); [lia | reflexivity].
Qed.

(** X3 -- [shuffle].  With [rand] returning values in [[0, RAND_MAX]],
    shuffling the first [n] elements of an array of at least [n] elements
    gives a permutation of the array in which the elements from index [n]
    on have not moved, and draws [n - 1] random numbers (none when
    [n <= 1]). *)
Theorem shuffle_permutes :
  forall (rand : nat -> Z), (forall c, 0 <= rand c <= RAND_MAX) ->
  forall (arr : list Z) (n : Z) (c : nat),
  n <= Z.of_nat (length arr) ->
  Permutation arr (fst (shuffle rand arr n c))
  /\ (forall k, n <= k -> get 0 (fst (shuffle rand arr n c)) k = get 0 arr k)
  /\ snd (shuffle rand arr n c) = (c + Z.to_nat (n - 1))%nat.
Proof.
  intros rand rand_range arr n c Hn. unfold shuffle.
  destruct (Z.le_gt_cases n 1) as [Hle|Hgt].
  - replace (Z.to_nat (n - 1)) with 0%nat by lia. cbn.
    split; [apply Permutation_refl|]. split; [reflexivity | lia].
  - destruct (shuffle_loop_perm rand (Z.to_nat (n - 1)) rand_range arr c) as (H1 & H2 & H3);
      [lia|].
    split; [exact H1|]. split; [|exact H2].
    intros k Hk. apply H3. lia.
Qed.

Lemma shuffle_permutes_witness :
  ((forall c, 0 <= lcg_rand c <= RAND_MAX) /\ 4 <= Z.of_nat (length [1; 2; 3; 4; 9]))
  /\ Permutation [1; 2; 3; 4; 9] (fst (shuffle lcg_rand [1; 2; 3; 4; 9] 4 0))
  /\ snd (shuffle lcg_rand [1; 2; 3; 4; 9] 4 0) = 3%nat.
Proof.
  assert (Hn : 4 <= Z.of_nat (length [1; 2; 3; 4; 9])) by (cbn; lia).
  split; [exact (conj lcg_rand_range Hn)|].
  destruct (shuffle_permutes lcg_rand lcg_rand_range [1; 2; 3; 4; 9] 4 0%nat Hn)
    as (H1 & _ & H3).
  exact (conj H1 H3).
Defined.

(** X4 -- [int_qsort_compar].  For two [int] values whose difference is an
    [int] the sign of the result orders them; this covers any two values of
    the same sign.  When the difference is above [INT_MAX] the subtraction
    wraps and the result is negative although the left value is the larger
    one, and the other way round below [INT_MIN]. *)
Theorem int_qsort_compar_sign :
  forall l r : Z,
  CInt.INT_MIN <= l <= CInt.INT_MAX -> CInt.INT_MIN <= r <= CInt.INT_MAX ->
  (CInt.INT_MIN <= l - r <= CInt.INT_MAX ->
     (int_qsort_compar l r < 0 <-> l < r)
     /\ (int_qsort_compar l r = 0 <-> l = r)
     /\ (0 < int_qsort_compar l r <-> r < l))
  /\ (0 <= l -> 0 <= r -> CInt.INT_MIN <= l - r <= CInt.INT_MAX)
  /\ (l < 0 -> r < 0 -> CInt.INT_MIN <= l - r <= CInt.INT_MAX)
  /\ (CInt.INT_MAX < l - r -> int_qsort_compar l r < 0)
  /\ (l - r < CInt.INT_MIN -> 0 <= int_qsort_compar l r).
Proof.
  intros l r Hl Hr. unfold int_qsort_compar, CInt.sub.
  split; [|split; [|split; [|split]]].
  - intros Hd. rewrite wrap_small by assumption. lia.
  - unfold CInt.INT_MIN, CInt.INT_MAX in *. lia.
  - unfold CInt.INT_MIN, CInt.INT_MAX in *. lia.
  - intros Hd. unfold CInt.wrap, CInt.INT_MIN, CInt.INT_MAX in *.
    replace (l - r + 2147483648) with ((l - r - 2147483648) + 1 * 4294967296) by lia.
    rewrite Z.mod_add, Z.mod_small by lia. lia.
  - intros Hd. unfold CInt.wrap, CInt.INT_MIN, CInt.INT_MAX in *.
    replace (l - r + 2147483648) with ((l - r + 6442450944) + (-1) * 4294967296) by lia.
    rewrite Z.mod_add, Z.mod_small by lia. lia.
Qed.

Lemma int_qsort_compar_sign_witness :
  (CInt.INT_MIN <= 2147483647 <= CInt.INT_MAX /\ CInt.INT_MIN <= -1 <= CInt.INT_MAX)
  /\ int_qsort_compar 2147483647 (-1) < 0.
Proof.
  assert (Hl : CInt.INT_MIN <= 2147483647 <= CInt.INT_MAX)
    by (unfold CInt.INT_MIN, CInt.INT_MAX; lia).
  assert (Hr : CInt.INT_MIN <= -1 <= CInt.INT_MAX)
    by (unfold CInt.INT_MIN, CInt.INT_MAX; lia).
  split; [exact (conj Hl Hr)|].
  apply (proj1 (proj2 (proj2 (proj2 (int_qsort_compar_sign 2147483647 (-1) Hl Hr))))).
  unfold CInt.INT_MAX. lia.
Defined.

(* ================================================================== *)
(** * The interpolator on its own *)
(* ================================================================== *)

(** X5 -- [trig_interp] writes the first [size] samples and nothing else.
    On a table of at least [size] samples the length is kept and every
    sample from index [size] on is left as it was, so a [size] that is
    zero or negative leaves the table untouched; with no control point
    ([num_points <= 0]) the sum is empty and every sample written is [+0]. *)
Theorem trig_interp_frame :
  forall (c_sin c_tan : double -> double) (table : list float) (size : Z)
         (pts : list sample_amplitude_pair) (num_points : Z),
  size <= Z.of_nat (length table) ->
  length (trig_interp c_sin c_tan table size pts num_points) = length table
  /\ (forall d j, size <= j ->
      get d (trig_interp c_sin c_tan table size pts num_points) j = get d table j)
  /\ (size <= 0 -> trig_interp c_sin c_tan table size pts num_points = table)
  /\ (num_points <= 0 -> forall d j, 0 <= j < size ->
      get d (trig_interp c_sin c_tan table size pts num_points) j = S754_zero false).
Proof.
  intros c_sin c_tan table size pts np Hlen.
  split; [apply trig_interp_length; assumption|].
  split; [|split].
  - intros d j Hj. unfold trig_interp.
    destruct (for_loop_store
                (fun i => hard_limit (interp_sum c_sin c_tan size pts np i))
                d (Z.to_nat size) 0 table) as [_ Hg]; [lia | lia |].
    destruct (Z.lt_ge_cases j 0) as [Hneg|Hpos].
    + unfold get. destruct (Z.ltb_spec j 0); [reflexivity | lia].
    + rewrite Hg by assumption.
      destruct (Z.leb_spec 0 j), (Z.ltb_spec j (0 + Z.of_nat (Z.to_nat size)));
        cbn [andb]; reflexivity || lia.
  - intros Hs. unfold trig_interp.
    replace (Z.to_nat size) with 0%nat by lia. reflexivity.
  - intros Hnp d j Hj. rewrite trig_interp_get by assumption.
    unfold interp_sum. replace (Z.to_nat np) with 0%nat by lia.
    reflexivity.
Qed.

Lemma trig_interp_frame_witness :
  2 <= Z.of_nat (length [of_int 1; of_int 1; of_int 1])
  /\ get S754_nan (trig_interp sin_poly tan_poly [of_int 1; of_int 1; of_int 1] 2 [] 0) 2
     = of_int 1.
Proof.
  assert (H : 2 <= Z.of_nat (length [of_int 1; of_int 1; of_int 1])) by (cbn; lia).
  split; [exact H|].
  destruct (trig_interp_frame sin_poly tan_poly [of_int 1; of_int 1; of_int 1] 2 [] 0 H)
    as (_ & Hg & _).
  rewrite Hg by lia. reflexivity.
Defined.

(** X6 -- the hard limiter of [trig_interp].  No sample written compares
    above 1 or below -1, and a sample written is a NaN exactly when the sum
    it is cut from is one: the limiter's two comparisons are false on a NaN,
    and it stores nothing but 1, -1 or the sum. *)
Theorem trig_interp_limited :
  forall (c_sin c_tan : double -> double) (table : list float) (size : Z)
         (pts : list sample_amplitude_pair) (num_points i : Z) (d : float),
  0 <= i < size -> size <= Z.of_nat (length table) ->
  let v := get d (trig_interp c_sin c_tan table size pts num_points) i in
  let sum := interp_sum c_sin c_tan size pts num_points i in
  flt (of_int 1) v = false
  /\ flt v (of_int (-1)) = false
  /\ (v = of_int 1 \/ v = of_int (-1) \/ v = sum)
  /\ (v = S754_nan <-> sum = S754_nan).
Proof.
  intros c_sin c_tan table size pts np i d Hi Hlen v sum.
  assert (Hv : v = hard_limit sum) by (apply trig_interp_get; assumption).
  rewrite Hv. destruct (hard_limit_bounds sum) as [H1 H2].
  split; [exact H1|]. split; [exact H2|].
  unfold hard_limit.
  destruct (flt (of_int 1) sum) eqn:E1.
  - split; [left; reflexivity|].
    split; [intros H; discriminate H|].
    intros H. rewrite H in E1. discriminate E1.
  - destruct (flt sum (of_int (-1))) eqn:E2.
    + split; [right; left; reflexivity|].
      split; [intros H; discriminate H|].
      intros H. rewrite H in E2. discriminate E2.
    + split; [right; right; reflexivity|]. split; intros H; exact H.
Qed.

Lemma trig_interp_limited_witness :
  (0 <= 1 < 8 /\ 8 <= Z.of_nat (length (repeat (S754_zero false) 8)))
  /\ flt (of_int 1)
         (get S754_nan
              (trig_interp sin_poly tan_poly (repeat (S754_zero false) 8) 8 example_points 4)
              1) = false.
Proof.
  assert (Hi : 0 <= 1 < 8) by lia.
  assert (Hl : 8 <= Z.of_nat (length (repeat (S754_zero false) 8))) by (cbn; lia).
  split; [exact (conj Hi Hl)|].
  exact (proj1 (trig_interp_limited sin_poly tan_poly (repeat (S754_zero false) 8) 8
                  example_points 4 1 S754_nan Hi Hl)).
Defined.

(* ================================================================== *)
(** * What a block plays *)
(* ================================================================== *)

(** A read is defined exactly inside the array. *)
Lemma read_defined {A : Type} (l : list A) (i : Z) :
  read l i <> None <-> 0 <= i < Z.of_nat (length l).
Proof.
  unfold read. destruct (Z.ltb_spec i 0) as [Hneg|Hpos].
  - split; [intros H; contradiction H; reflexivity | lia].
  - rewrite nth_error_None. lia.
Qed.

Lemma nth_block_of (x : t_randwave) (inc n : Z) (k : nat) :
  (k < Z.to_nat n)%nat ->
  nth k (block_of x inc n) None
  = read (wavetable x) (phase_after (wavetable_size x) inc (phase x) k).
Proof.
  intros Hk. unfold block_of.
  rewrite nth_indep
    with (d' := read (wavetable x) (phase_after (wavetable_size x) inc (phase x) 0))
    by (rewrite length_map, length_seq; exact Hk).
  rewrite (map_nth (fun k => read (wavetable x)
                                  (phase_after (wavetable_size x) inc (phase x) k))
                   (seq 0 (Z.to_nat n)) 0%nat k).
  rewrite seq_nth by exact Hk. reflexivity.
Qed.

(** Where the samples of a block are read. *)
Lemma block_reads (x : t_randwave) (inc n : Z) :
  1 <= wavetable_size x ->
  Z.of_nat (length (wavetable x)) = wavetable_size x ->
  1 <= n ->
  let out := block_of x inc n in
  Z.of_nat (length out) = n
  /\ (forall k, (1 <= k < length out)%nat -> nth k out None <> None)
  /\ ((forall s, In s out -> s <> None) <-> 0 <= phase x < wavetable_size x).
Proof.
  intros Hs Hlen Hn out.
  assert (Hl : length out = Z.to_nat n)
    by (unfold out, block_of; rewrite length_map, length_seq; reflexivity).
  split; [lia|]. split; [|split].
  - intros k Hk. unfold out. rewrite nth_block_of by lia.
    apply read_defined. rewrite Hlen. apply phase_after_range; [assumption | lia].
  - intros Hall.
    assert (H0 : nth 0 out None <> None) by (apply Hall, nth_In; lia).
    unfold out in H0. rewrite nth_block_of in H0 by lia.
    apply read_defined in H0. cbn in H0. lia.
  - intros Hp s Hin. unfold out, block_of in Hin.
    apply in_map_iff in Hin. destruct Hin as (k & <- & _).
    apply read_defined. rewrite Hlen.
    destruct k as [|k]; [exact Hp|].
    apply phase_after_range; [assumption | lia].
Qed.

(** X7 -- [randwave_perform] reads inside the table.  For an object whose
    table has [wavetable_size >= 1] samples, a block of [n >= 1] samples is
    played to its end and emits [n] samples; every sample after the first
    is read inside the table, whatever the saved phase, and the first one
    is read inside the table exactly when the saved phase is: all the
    samples of the block are defined if and only if
    [0 <= phase < wavetable_size]. *)
Theorem perform_reads_inside :
  forall (x : t_randwave) (frequency : list float) (n : Z),
  1 <= wavetable_size x ->
  Z.of_nat (length (wavetable x)) = wavetable_size x ->
  1 <= n <= CInt.INT_MAX ->
  exists (fuel0 : nat) (out : list (option float)) (x' : t_randwave),
    (forall fuel, (fuel0 <= fuel)%nat ->
       randwave_perform fuel x frequency n = Some (out, x'))
    /\ (forall fuel o y, randwave_perform fuel x frequency n = Some (o, y) ->
        o = out /\ y = x')
    /\ Z.of_nat (length out) = n
    /\ (forall k, (1 <= k < length out)%nat -> nth k out None <> None)
    /\ ((forall s, In s out -> s <> None) <-> 0 <= phase x < wavetable_size x).
Proof.
  intros x frequency n Hs Hlen Hn.
  destruct (perform_total x frequency n Hs ltac:(lia)) as (fuel0 & Hret & Hany).
  cbv zeta in Hret, Hany.
  exists fuel0. eexists. eexists.
  split; [exact Hret|]. split; [exact Hany|].
  exact (block_reads x _ n Hs Hlen ltac:(lia)).
Qed.

Lemma perform_reads_inside_witness :
  (1 <= wavetable_size example_object
   /\ Z.of_nat (length (wavetable example_object)) = wavetable_size example_object
   /\ 1 <= 2 <= CInt.INT_MAX)
  /\ exists (fuel0 : nat) out x',
       (forall fuel, (fuel0 <= fuel)%nat ->
          randwave_perform fuel example_object [] 2 = Some (out, x'))
       /\ Z.of_nat (length out) = 2
       /\ ((forall s, In s out -> s <> None)
           <-> 0 <= phase example_object < wavetable_size example_object).
Proof.
  assert (Hs : 1 <= wavetable_size example_object) by (cbn; lia).
  assert (Hl : Z.of_nat (length (wavetable example_object)) = wavetable_size example_object)
    by reflexivity.
  assert (Hn : 1 <= 2 <= CInt.INT_MAX) by (unfold CInt.INT_MAX; lia).
  split; [exact (conj Hs (conj Hl Hn))|].
  destruct (perform_reads_inside example_object [] 2 Hs Hl Hn)
    as (fuel0 & out & x' & Hret & _ & Hlen & _ & Hiff).
  exists fuel0, out, x'. exact (conj Hret (conj Hlen Hiff)).
Defined.

(** Without overflow the phase after [k] samples has a closed form. *)
Lemma phase_after_closed (size inc : Z) (k : nat) :
  1 <= size -> 0 <= inc -> size + inc <= CInt.INT_MAX ->
  forall i, 0 <= i < size ->
  phase_after size inc i k = (i + Z.of_nat k * inc) mod size.
Proof.
  intros Hs Hinc Hmax. induction k as [|k IH]; intros i Hi.
  - cbn. rewrite Z.add_0_r, Z.mod_small by lia. reflexivity.
  - rewrite phase_after_succ. unfold CInt.add.
    rewrite wrap_small by (unfold CInt.INT_MIN, CInt.INT_MAX in *; lia).
    rewrite IH by (apply Z.mod_pos_bound; lia).
    rewrite Zplus_mod_idemp_l. f_equal. lia.
Qed.

Lemma with_phase_same (x : t_randwave) : with_phase x (phase x) = x.
Proof. destruct x; reflexivity. Qed.

(** The integer ceiling of [2 ^ a / 2 ^ j]. *)
Lemma ceiling_pow2 (a j : Z) :
  0 <= a -> 0 <= j ->
  (2 ^ a + 2 ^ j - 1) / 2 ^ j = (if j <=? a then 2 ^ (a - j) else 1).
Proof.
  intros Ha Hj.
  pose proof (Z.pow_pos_nonneg 2 j ltac:(lia) Hj) as Hpj.
  destruct (Z.leb_spec j a) as [Hle|Hgt].
  - symmetry. apply Z.div_unique_pos with (r := 2 ^ j - 1); [lia|].
    replace (2 ^ a) with (2 ^ j * 2 ^ (a - j))
      by (rewrite <- Z.pow_add_r by lia; f_equal; lia).
    lia.
  - pose proof (Z.pow_pos_nonneg 2 a ltac:(lia) Ha) as Hpa.
    pose proof (Z.pow_lt_mono_r 2 a j ltac:(lia) ltac:(lia) Hgt) as Hlt.
    symmetry. apply Z.div_unique_pos with (r := 2 ^ a - 1); lia.
Qed.

(** X8 -- a block of [2 ^ j] samples on a table of [2 ^ a] samples.  With
    [a < 24], [j <= 30] and the phase inside the table, the increment is
    [2 ^ (a - j)] (1 when the block is longer than the table), the block is
    played to its end, sample [k] of it is the table entry at
    [(phase + k * increment) mod 2 ^ a], and it ends on the phase it started
    from: the object is left as it was, so every block plays the same
    samples. *)
Theorem perform_power_of_two_block :
  forall (x : t_randwave) (frequency : list float) (a j : Z),
  0 <= a < 24 -> 0 <= j <= 30 ->
  wavetable_size x = 2 ^ a -> 0 <= phase x < 2 ^ a ->
  let inc := if j <=? a then 2 ^ (a - j) else 1 in
  base_sample_increment (2 ^ a) (2 ^ j) = inc
  /\ exists (fuel0 : nat) (out : list (option float)),
       (forall fuel, (fuel0 <= fuel)%nat ->
          randwave_perform fuel x frequency (2 ^ j) = Some (out, x))
       /\ (forall fuel o y, randwave_perform fuel x frequency (2 ^ j) = Some (o, y) ->
           o = out /\ y = x)
       /\ out = map (fun k => read (wavetable x) ((phase x + Z.of_nat k * inc) mod 2 ^ a))
                    (seq 0 (Z.to_nat (2 ^ j))).
Proof.
  intros x frequency a j Ha Hj Hsize Hphase inc.
  pose proof (Z.pow_pos_nonneg 2 a ltac:(lia) ltac:(lia)) as Hpa.
  pose proof (Z.pow_pos_nonneg 2 j ltac:(lia) ltac:(lia)) as Hpj.
  pose proof (Z.pow_lt_mono_r 2 a 24 ltac:(lia) ltac:(lia) ltac:(lia)) as Ha24.
  pose proof (Z.pow_le_mono_r 2 j 30 ltac:(lia) ltac:(lia)) as Hj30.
  change (2 ^ 24) with 16777216 in Ha24. change (2 ^ 30) with 1073741824 in Hj30.
  assert (Hinc : base_sample_increment (2 ^ a) (2 ^ j) = inc).
  { rewrite base_sample_increment_pow2 by (change (2 ^ 24) with 16777216; lia).
    apply ceiling_pow2; lia. }
  assert (Hbound : 1 <= inc <= 2 ^ a).
  { unfold inc. destruct (Z.leb_spec j a); [|lia].
    pose proof (Z.pow_pos_nonneg 2 (a - j) ltac:(lia) ltac:(lia)).
    pose proof (Z.pow_le_mono_r 2 (a - j) a ltac:(lia) ltac:(lia)). lia. }
  assert (Hclosed : forall k, phase_after (2 ^ a) inc (phase x) k
                              = (phase x + Z.of_nat k * inc) mod 2 ^ a).
  { intros k. apply phase_after_closed; unfold CInt.INT_MAX; lia. }
  split; [exact Hinc|].
  destruct (perform_total x frequency (2 ^ j) ltac:(lia) ltac:(unfold CInt.INT_MAX; lia))
    as (fuel0 & Hret & Hany).
  cbv zeta in Hret, Hany. rewrite Hsize, Hinc in Hret, Hany.
  assert (Hend : with_phase x (phase_after (2 ^ a) inc (phase x) (Z.to_nat (2 ^ j))) = x).
  { rewrite Hclosed, Z2Nat.id by lia.
    replace (2 ^ j * inc) with ((if j <=? a then 1 else 2 ^ (j - a)) * 2 ^ a).
    - rewrite Z.mod_add, Z.mod_small by lia. apply with_phase_same.
    - unfold inc. destruct (Z.leb_spec j a).
      + rewrite Z.mul_1_l, <- Z.pow_add_r by lia. f_equal. lia.
      + rewrite Z.mul_1_r, <- Z.pow_add_r by lia. f_equal. lia. }
  rewrite Hend in Hret, Hany.
  exists fuel0. eexists. split; [exact Hret|]. split; [exact Hany|].
  unfold block_of. rewrite Hsize.
  apply map_ext. intros k. rewrite Hclosed. reflexivity.
Qed.

Lemma perform_power_of_two_block_witness :
  (0 <= 2 < 24 /\ 0 <= 1 <= 30 /\ wavetable_size example_object = 2 ^ 2
   /\ 0 <= phase example_object < 2 ^ 2)
  /\ base_sample_increment (2 ^ 2) (2 ^ 1) = 2
  /\ exists (fuel0 : nat) out,
       (forall fuel, (fuel0 <= fuel)%nat ->
          randwave_perform fuel example_object [] (2 ^ 1) = Some (out, example_object))
       /\ out = [Some (of_int 1); Some (of_int (-1))].
Proof.
  assert (Ha : 0 <= 2 < 24) by lia.
  assert (Hj : 0 <= 1 <= 30) by lia.
  assert (Hs : wavetable_size example_object = 2 ^ 2) by reflexivity.
  assert (Hp : 0 <= phase example_object < 2 ^ 2) by (cbn; lia).
  split; [exact (conj Ha (conj Hj (conj Hs Hp)))|].
  destruct (perform_power_of_two_block example_object [] 2 1 Ha Hj Hs Hp)
    as (Hinc & fuel0 & out & Hret & _ & Hout).
  split; [exact Hinc|].
  exists fuel0, out. split; [exact Hret|]. rewrite Hout. reflexivity.
Defined.

(* ================================================================== *)
(** * What a generation leaves behind *)
(* ================================================================== *)

Lemma indices_succ (lo : Z) (n : nat) : indices lo (S n) = lo :: indices (lo + 1) n.
Proof.
  unfold indices. cbn [seq map]. rewrite Z.add_0_r. f_equal.
  rewrite <- seq_shift, map_map. apply map_ext. intros k. lia.
Qed.

(** A loop that appends [f i] for the indices of [[lo, lo + n)]. *)
Lemma for_loop_append {A : Type} (f : Z -> A) (n : nat) :
  forall (lo : Z) (l : list A),
  for_loop n lo (fun i log => log ++ [f i]) l = l ++ map f (indices lo n).
Proof.
  induction n as [|n IH]; intros lo l.
  - cbn. rewrite app_nil_r. reflexivity.
  - cbn [for_loop]. rewrite IH, indices_succ, <- app_assoc. reflexivity.
Qed.

Lemma shuffle_draws (rand : nat -> Z) (arr : list Z) (n : Z) (c : nat) :
  snd (shuffle rand arr n c) = (c + Z.to_nat (n - 1))%nat.
Proof.
  unfold shuffle. generalize (Z.to_nat (n - 1)) as i. intros i. revert arr c.
  induction i as [|i IH]; intros arr c; [cbn; lia|].
  cbn [shuffle_loop]. rewrite IH. lia.
Qed.

(** A loop that counts its rounds in the second component of its state. *)
Lemma for_loop_counter {A : Type} (g : Z -> A * nat -> A) (n : nat) :
  forall (lo : Z) (s : A * nat),
  snd (for_loop n lo (fun i st => (g i st, S (snd st))) s) = (snd s + n)%nat.
Proof.
  induction n as [|n IH]; intros lo s; [cbn; lia|].
  cbn [for_loop]. rewrite IH. cbn [snd]. lia.
Qed.

Lemma place_points_draws (rand : nat -> Z) (all_samples : list Z) (count : Z)
      (pts : list sample_amplitude_pair) (c : nat) :
  snd (place_points rand all_samples count pts c) = (c + Z.to_nat count)%nat.
Proof.
  unfold place_points.
  exact (for_loop_counter
           (fun i st => upd (fst st) i
                            (mk_pair (get 0 all_samples (i - 1))
                                     (random_amplitude (rand (snd st)))))
           (Z.to_nat count) 1 (pts, c)).
Qed.

Lemma control_points_draws (rand : nat -> Z) (size np : Z) (c : nat) :
  snd (control_points rand size np c)
  = (c + Z.to_nat (size - 3) + Z.to_nat (np - 2))%nat.
Proof.
  unfold control_points.
  pose proof (shuffle_draws rand (fill (repeat 0 (Z.to_nat (size - 2))) (size - 2))
                (size - 2) c) as Hs.
  destruct (shuffle rand _ (size - 2) c) as [shuffled c1]. cbn [snd] in Hs.
  rewrite place_points_draws, Hs. replace (size - 2 - 1) with (size - 3) by lia.
  reflexivity.
Qed.

Lemma generate_result (c_sin c_tan : double -> double) (rand : nat -> Z)
      (x x' : t_randwave) (c c' : nat) (ws nip : float) (log : list message) :
  randwave_generate c_sin c_tan rand x c ws nip = Returns (log, x', c') ->
  let size := effective_size ws in
  let np := effective_points nip in
  (2 <= size /\ 2 <= np <= size)
  /\ x' = generated_object c_sin c_tan rand x c size np
  /\ c' = snd (control_points rand size np c)
  /\ log = [PostGenerating]
           ++ (if flt ws (of_int 0) then [ErrInvalidSampleCount] else [])
           ++ (if bad_count ws nip then [ErrInvalidNumPoints] else [])
           ++ post_points (fst (control_points rand size np c)) np
           ++ [PostGenerated].
Proof.
  intros H size np.
  destruct (generate_returns_inv c_sin c_tan rand x x' c c' ws nip log H) as (Hs & Hnp & Hx).
  fold size in Hs, Hnp, Hx. fold np in Hnp, Hx.
  split; [exact (conj Hs Hnp)|]. split; [exact Hx|].
  unfold randwave_generate in H.
  fold (bad_count ws nip) in H. fold (effective_size ws) in H.
  fold (effective_points nip) in H. fold size in H. fold np in H.
  destruct (Z.ltb_spec (size - 2) 0); [lia|].
  destruct (Z.ltb_spec np 2); [lia|].
  destruct (Z.ltb_spec size np); [lia|].
  cbn [orb] in H.
  destruct (control_points rand size np c) as [pts c1]. cbn [fst snd].
  destruct (flt ws (of_int 0)), (bad_count ws nip);
    injection H as Hlog _ Hc; (split; [symmetry; exact Hc|]);
    rewrite <- Hlog; reflexivity.
Qed.

(** X9 -- the log of [randwave_generate].  A call that returns has posted
    "Generating", then the diagnostic for a negative table size if the size
    argument is negative, then the diagnostic for the point count if the
    count is not inside [(0, wavetable_size - 2]] (the size taken as
    given), then one line for each control point it has stored, in the
    order of the array, then "Generated". *)
Theorem generate_log :
  forall (c_sin c_tan : double -> double) (rand : nat -> Z)
         (x x' : t_randwave) (c c' : nat) (ws nip : float) (log : list message),
  randwave_generate c_sin c_tan rand x c ws nip = Returns (log, x', c') ->
  log = [PostGenerating]
        ++ (if flt ws (of_int 0) then [ErrInvalidSampleCount] else [])
        ++ (if fle nip (of_int 0) || flt (fsub ws (of_int 2)) nip
            then [ErrInvalidNumPoints] else [])
        ++ map (fun i => PostPoint i (get no_point (points x') i))
               (indices 0 (Z.to_nat (num_points x')))
        ++ [PostGenerated].
Proof.
  intros c_sin c_tan rand x x' c c' ws nip log H.
  destruct (generate_result c_sin c_tan rand x x' c c' ws nip log H) as (_ & Hx & _ & Hlog).
  rewrite Hlog, Hx. cbn [points num_points generated_object].
  unfold post_points. rewrite for_loop_append. reflexivity.
Qed.

Lemma generate_log_witness :
  exists log x' c',
    randwave_generate sin_poly tan_poly lcg_rand randwave_new 0 (of_int 16) (of_int 2)
    = Returns (log, x', c')
    /\ log = [PostGenerating]
             ++ map (fun i => PostPoint i (get no_point (points x') i)) (indices 0 4)
             ++ [PostGenerated].
Proof.
  destruct (generate_returns sin_poly tan_poly lcg_rand randwave_new 0 (of_int 16) (of_int 2))
    as (log & H & _); [vm_compute; discriminate | vm_compute; split; discriminate |].
  eexists. eexists. eexists. split; [exact H|].
  exact (generate_log sin_poly tan_poly lcg_rand _ _ _ _ _ _ _ H).
Defined.

(** X11 -- the random numbers of [randwave_generate].  A call that returns
    a table of [size] samples with [np] points has called [rand]
    [max (size - 3, 0) + (np - 2)] times: first once for each step of the
    shuffle of the [size - 2] candidate positions, then once for each
    interior point, in the order of the positions; the two end points use
    none. *)
Theorem generate_draws :
  forall (c_sin c_tan : double -> double) (rand : nat -> Z)
         (x x' : t_randwave) (c c' : nat) (ws nip : float) (log : list message),
  randwave_generate c_sin c_tan rand x c ws nip = Returns (log, x', c') ->
  let shuffled := Z.to_nat (wavetable_size x' - 3) in
  c' = (c + shuffled + Z.to_nat (num_points x' - 2))%nat
  /\ (forall j, 1 <= j <= num_points x' - 2 ->
      amplitude (get no_point (points x') j)
      = random_amplitude (rand (c + shuffled + Z.to_nat (j - 1))%nat))
  /\ amplitude (get no_point (points x') 0) = of_int 0
  /\ amplitude (get no_point (points x') (num_points x' - 1)) = of_int 0.
Proof.
  intros c_sin c_tan rand x x' c c' ws nip log H.
  destruct (generate_result c_sin c_tan rand x x' c c' ws nip log H)
    as ((Hs & Hnp) & Hx & Hc & _).
  rewrite Hx. cbn [points num_points wavetable_size generated_object]. cbv zeta.
  destruct (control_points_frame rand (effective_size ws) (effective_points nip) c
              (proj1 Hnp)) as (_ & H0 & Hlast & Hmid).
  split; [rewrite Hc; apply control_points_draws|]. split; [|split].
  - intros j Hj. rewrite (Hmid j Hj). cbn [amplitude].
    unfold shuffled_samples. rewrite shuffle_draws.
    replace (effective_size ws - 2 - 1) with (effective_size ws - 3) by lia.
    reflexivity.
  - rewrite H0. reflexivity.
  - rewrite Hlast. reflexivity.
Qed.

Lemma generate_draws_witness :
  exists log x' c',
    randwave_generate sin_poly tan_poly lcg_rand randwave_new 0 (of_int 16) (of_int 2)
    = Returns (log, x', c')
    /\ c' = (0 + Z.to_nat (wavetable_size x' - 3) + Z.to_nat (num_points x' - 2))%nat.
Proof.
  destruct (generate_returns sin_poly tan_poly lcg_rand randwave_new 0 (of_int 16) (of_int 2))
    as (log & H & _); [vm_compute; discriminate | vm_compute; split; discriminate |].
  eexists. eexists. eexists. split; [exact H|].
  exact (proj1 (generate_draws sin_poly tan_poly lcg_rand _ _ _ _ _ _ _ H)).
Defined.

(* ================================================================== *)
(** * Rounding keeps the sign *)
(* ================================================================== *)

Lemma shr_1_nonneg (mrs : shr_record) : 0 <= shr_m mrs -> 0 <= shr_m (shr_1 mrs).
Proof.
  destruct mrs as [m r s]. cbn [shr_m].
  destruct m as [|[p|p|]|p]; cbn [shr_1 shr_m]; lia.
Qed.

Lemma iter_shr_1_nonneg (p : positive) :
  forall mrs, 0 <= shr_m mrs -> 0 <= shr_m (iter_pos shr_1 p mrs).
Proof.
  induction p as [p IH|p IH|]; intros mrs H; cbn [iter_pos].
  - apply IH, IH, shr_1_nonneg, H.
  - apply IH, IH, H.
  - apply shr_1_nonneg, H.
Qed.

Lemma shr_fexp_nonneg (prec emax m e : Z) (l : location) :
  0 <= m -> 0 <= shr_m (fst (shr_fexp prec emax m e l)).
Proof.
  intros Hm. unfold shr_fexp.
  assert (H0 : 0 <= shr_m (shr_record_of_loc m l))
    by (destruct l as [|[| |]]; cbn [shr_record_of_loc shr_m]; exact Hm).
  destruct (fexp prec emax (Zdigits2 m + e) - e) as [|p|p]; cbn [shr fst]; try exact H0.
  apply iter_shr_1_nonneg, H0.
Qed.

Lemma round_nearest_even_nonneg (m : Z) (l : location) :
  0 <= m -> 0 <= round_nearest_even m l.
Proof.
  intros Hm. destruct l as [|[| |]]; cbn [round_nearest_even];
    try destruct (Z.even m); lia.
Qed.

Lemma binary_round_aux_sign (prec emax : Z) (s : bool) (m e : Z) (l : location) :
  0 <= m -> has_sign s (binary_round_aux prec emax s m e l).
Proof.
  intros Hm. unfold binary_round_aux.
  pose proof (shr_fexp_nonneg prec emax m e l Hm) as H1.
  destruct (shr_fexp prec emax m e l) as [mrs1 e1]. cbn [fst] in H1.
  pose proof (shr_fexp_nonneg prec emax _ e1 loc_Exact
                (round_nearest_even_nonneg _ (loc_of_shr_record mrs1) H1)) as H2.
  destruct (shr_fexp prec emax _ e1 loc_Exact) as [mrs2 e2]. cbn [fst] in H2.
  destruct (shr_m mrs2) as [|p|p]; [reflexivity | | lia].
  destruct (e2 <=? emax - prec); reflexivity.
Qed.

Lemma binary_round_sign (prec emax : Z) (s : bool) (m : positive) (e : Z) :
  has_sign s (binary_round prec emax s m e).
Proof.
  unfold binary_round.
  destruct (shl_align m e _) as [mz ez].
  apply binary_round_aux_sign. lia.
Qed.

(** Two less than a negative number is negative. *)
Lemma fsub_two_negative (ws : float) :
  flt ws (of_int 0) = true -> has_sign true (fsub ws (of_int 2)).
Proof.
  rewrite of_int_two. change (of_int 0) with (S754_zero false).
  destruct ws as [s|s| |s m e]; cbn; try discriminate.
  - destruct s; [reflexivity | discriminate].
  - destruct s; [|discriminate]. intros _.
    unfold fsub, SFsub. cbn [cond_Zopp Z.opp Z.sub Z.add].
    apply binary_round_sign.
Qed.

(** The count test of [randwave_generate] under a negative size argument. *)
Lemma bad_count_negative_size (ws nip : float) :
  flt ws (of_int 0) = true -> nip <> S754_nan -> bad_count ws nip = true.
Proof.
  intros Hws Hnip. pose proof (fsub_two_negative ws Hws) as Hs.
  unfold bad_count. change (of_int 0) with (S754_zero false).
  destruct (fsub ws (of_int 2)) as [s|s| |s m e]; cbn in Hs; try contradiction; subst s;
    destruct nip as [s'|s'| |s' m' e']; try contradiction; try destruct s'; reflexivity.
Qed.

(** A count that is a NaN is converted to [INT_MIN]. *)
Lemma effective_points_nan : effective_points S754_nan = CInt.INT_MIN.
Proof. vm_compute. reflexivity. Qed.

(** X12 -- a negative size argument.  The count is tested against the size
    argument as given, not against the 2048 samples used in its place, so a
    call with a negative size that returns has posted both diagnostics,
    whatever the count; the table has 2048 samples. *)
Theorem generate_negative_size_both_diagnostics :
  forall (c_sin c_tan : double -> double) (rand : nat -> Z)
         (x x' : t_randwave) (c c' : nat) (ws nip : float) (log : list message),
  randwave_generate c_sin c_tan rand x c ws nip = Returns (log, x', c') ->
  flt ws (of_int 0) = true ->
  In ErrInvalidSampleCount log
  /\ In ErrInvalidNumPoints log
  /\ wavetable_size x' = DEFAULT_WAVETABLE_SIZE.
Proof.
  intros c_sin c_tan rand x x' c c' ws nip log H Hws.
  destruct (generate_result c_sin c_tan rand x x' c c' ws nip log H)
    as ((_ & Hnp) & Hx & _ & Hlog).
  assert (Hnip : nip <> S754_nan).
  { intros ->. rewrite effective_points_nan in Hnp. unfold CInt.INT_MIN in Hnp. lia. }
  rewrite (bad_count_negative_size ws nip Hws Hnip), Hws in Hlog.
  split; [|split].
  - rewrite Hlog. cbn. auto.
  - rewrite Hlog. cbn. auto.
  - rewrite Hx. cbn [wavetable_size generated_object].
    unfold effective_size. rewrite Hws. reflexivity.
Qed.

Lemma generate_negative_size_both_diagnostics_witness :
  exists log x' c',
    randwave_generate sin_poly tan_poly lcg_rand randwave_new 0 (of_int (-5)) (of_int 4)
    = Returns (log, x', c')
    /\ flt (of_int (-5)) (of_int 0) = true
    /\ In ErrInvalidNumPoints log.
Proof.
  assert (Hws : flt (of_int (-5)) (of_int 0) = true) by reflexivity.
  destruct (generate_returns sin_poly tan_poly lcg_rand randwave_new 0 (of_int (-5)) (of_int 4))
    as (log & H & _); [vm_compute; discriminate | vm_compute; split; discriminate |].
  eexists. eexists. eexists. split; [exact H|]. split; [exact Hws|].
  exact (proj1 (proj2 (generate_negative_size_both_diagnostics
                         sin_poly tan_poly lcg_rand _ _ _ _ _ _ _ H Hws))).
Defined.

(** X13 -- a count of zero interior points.  When [num_interp_points + 2]
    is 2, a call that returns stores the two end points and nothing else;
    the candidate positions are shuffled all the same, so the call still
    draws [wavetable_size - 3] random numbers. *)
Theorem generate_no_interior_point :
  forall (c_sin c_tan : double -> double) (rand : nat -> Z)
         (x x' : t_randwave) (c c' : nat) (ws nip : float) (log : list message),
  randwave_generate c_sin c_tan rand x c ws nip = Returns (log, x', c') ->
  to_int (fadd nip (of_int 2)) = 2 ->
  points x' = [mk_pair 0 (of_int 0); mk_pair (wavetable_size x' - 1) (of_int 0)]
  /\ c' = (c + Z.to_nat (wavetable_size x' - 3))%nat.
Proof.
  intros c_sin c_tan rand x x' c c' ws nip log H Hnip.
  destruct (generate_result c_sin c_tan rand x x' c c' ws nip log H)
    as (_ & Hx & Hc & _).
  fold (effective_points nip) in Hnip. rewrite Hnip in Hx, Hc.
  rewrite Hx, Hc. cbn [points wavetable_size generated_object].
  destruct (control_points_frame rand (effective_size ws) 2 c ltac:(lia))
    as (Hlen & H0 & H1 & _).
  split.
  - apply (list_eq_get no_point); [cbn [length]; lia|].
    intros j Hj. assert (Hc2 : j = 0 \/ j = 1) by lia.
    destruct Hc2 as [-> | ->]; [exact H0 | exact H1].
  - rewrite control_points_draws. cbn. lia.
Qed.

Lemma generate_no_interior_point_witness :
  exists log x' c',
    randwave_generate sin_poly tan_poly lcg_rand randwave_new 0 (of_int 16) (of_int 0)
    = Returns (log, x', c')
    /\ to_int (fadd (of_int 0) (of_int 2)) = 2
    /\ points x' = [mk_pair 0 (of_int 0); mk_pair (wavetable_size x' - 1) (of_int 0)].
Proof.
  assert (Hnip : to_int (fadd (of_int 0) (of_int 2)) = 2) by reflexivity.
  destruct (generate_returns sin_poly tan_poly lcg_rand randwave_new 0 (of_int 16) (of_int 0))
    as (log & H & _); [vm_compute; discriminate | vm_compute; split; discriminate |].
  eexists. eexists. eexists. split; [exact H|]. split; [exact Hnip|].
  exact (proj1 (generate_no_interior_point sin_poly tan_poly lcg_rand _ _ _ _ _ _ _ H Hnip)).
Defined.

(* ================================================================== *)
(** * Generation followed by playback *)
(* ================================================================== *)

Lemma read_get {A : Type} (d : A) (l : list A) (i : Z) :
  0 <= i < Z.of_nat (length l) -> read l i = Some (get d l i).
Proof.
  intros Hi. unfold read, get. destruct (Z.ltb_spec i 0); [lia|].
  apply nth_error_nth'. lia.
Qed.

(** X14 -- the first sample played after a generation.  With [sin] and
    [tan] returning a zero for a zero and a NaN for a NaN: for arguments
    that give a table of at least 2 samples and a number of points between
    2 and the table size, [randwave_generate] returns, and on an object
    whose phase is 0, as it is after [randwave_new], the next block of
    [n >= 1] samples is played to its end and its first sample is a NaN. *)
Theorem first_sample_after_generate :
  forall (c_sin c_tan : double -> double),
  (forall s, c_sin (S754_zero s) = S754_zero s) -> c_sin S754_nan = S754_nan ->
  (forall s, c_tan (S754_zero s) = S754_zero s) -> c_tan S754_nan = S754_nan ->
  forall (rand : nat -> Z) (x : t_randwave) (c : nat) (ws nip : float)
         (frequency : list float) (n : Z),
  2 <= effective_size ws ->
  2 <= effective_points nip <= effective_size ws ->
  phase x = 0 -> 1 <= n <= CInt.INT_MAX ->
  exists log x1 c1,
    randwave_generate c_sin c_tan rand x c ws nip = Returns (log, x1, c1)
    /\ wavetable_size x1 = effective_size ws
    /\ exists (fuel0 : nat) out x2,
         (forall fuel, (fuel0 <= fuel)%nat ->
            randwave_perform fuel x1 frequency n = Some (out, x2))
         /\ Z.of_nat (length out) = n
         /\ nth 0 out None = Some S754_nan.
Proof.
  intros c_sin c_tan sin_zero sin_nan tan_zero tan_nan
         rand x c ws nip frequency n Hs Hnp Hphase Hn.
  destruct (generate_returns c_sin c_tan rand x c ws nip Hs Hnp) as (log & H & _).
  eexists. eexists. eexists. split; [exact H|].
  set (x1 := generated_object c_sin c_tan rand x c (effective_size ws) (effective_points nip)).
  split; [reflexivity|].
  assert (Hsize : wavetable_size x1 = effective_size ws) by reflexivity.
  destruct (perform_total x1 frequency n ltac:(lia) ltac:(lia)) as (fuel0 & Hret & _).
  cbv zeta in Hret.
  exists fuel0. eexists. eexists. split; [exact Hret|]. split.
  - unfold block_of. rewrite length_map, length_seq. lia.
  - rewrite nth_block_of by lia.
    change (phase_after (wavetable_size x1) (base_sample_increment (wavetable_size x1) n)
              (phase x1) 0) with (phase x).
    rewrite Hphase.
    assert (Hlen : Z.of_nat (length (wavetable x1)) = effective_size ws).
    { unfold x1. cbn [wavetable generated_object].
      rewrite trig_interp_length; rewrite repeat_length; lia. }
    assert (Hin : 0 <= 0 < Z.of_nat (length (wavetable x1))) by lia.
    rewrite (@read_get float (S754_zero false) _ _ Hin).
    unfold x1. cbn [wavetable generated_object].
    rewrite trig_interp_get by (rewrite ?repeat_length; lia).
    destruct (control_points_frame rand (effective_size ws) (effective_points nip) c
                (proj1 Hnp)) as (_ & H0 & _).
    rewrite (interp_sum_at_point c_sin c_tan sin_zero sin_nan tan_zero tan_nan
               _ _ _ 0 0); [reflexivity | lia |].
    unfold no_point in H0. rewrite H0. reflexivity.
Qed.

Lemma first_sample_after_generate_witness :
  (2 <= effective_size (of_int 16)
   /\ 2 <= effective_points (of_int 2) <= effective_size (of_int 16)
   /\ phase randwave_new = 0 /\ 1 <= 64 <= CInt.INT_MAX)
  /\ exists log x1 c1,
       randwave_generate sin_poly tan_poly lcg_rand randwave_new 0 (of_int 16) (of_int 2)
       = Returns (log, x1, c1)
       /\ exists (fuel0 : nat) out x2,
            (forall fuel, (fuel0 <= fuel)%nat ->
               randwave_perform fuel x1 [] 64 = Some (out, x2))
            /\ Z.of_nat (length out) = 64
            /\ nth 0 out None = Some S754_nan.
Proof.
  assert (Hs : 2 <= effective_size (of_int 16)) by (change (2 <= 16); lia).
  assert (Hnp : 2 <= effective_points (of_int 2) <= effective_size (of_int 16))
    by (change (2 <= 4 <= 16); lia).
  assert (Hp : phase randwave_new = 0) by reflexivity.
  assert (Hn : 1 <= 64 <= CInt.INT_MAX) by (unfold CInt.INT_MAX; lia).
  split; [exact (conj Hs (conj Hnp (conj Hp Hn)))|].
  destruct (first_sample_after_generate sin_poly tan_poly
              sin_poly_zero sin_poly_nan tan_poly_zero tan_poly_nan
              lcg_rand randwave_new 0%nat (of_int 16) (of_int 2) [] 64 Hs Hnp Hp Hn)
    as (log & x1 & c1 & H & _ & Hrest).
  exists log, x1, c1. exact (conj H Hrest).
Defined.

(* ================================================================== *)
(** * [randwave_dsp] *)
(* ================================================================== *)

(** The default arguments pass both tests of [randwave_generate]. *)
Lemma default_arguments :
  flt (of_int DEFAULT_WAVETABLE_SIZE) (of_int 0) = false
  /\ bad_count (of_int DEFAULT_WAVETABLE_SIZE) (of_int DEFAULT_NUM_INTERP_POINTS) = false
  /\ effective_size (of_int DEFAULT_WAVETABLE_SIZE) = 2048
  /\ effective_points (of_int DEFAULT_NUM_INTERP_POINTS) = 6.
Proof. vm_compute. repeat split. Qed.

Lemma generate_marks (c_sin c_tan : double -> double) (rand : nat -> Z)
      (x x' : t_randwave) (c c' : nat) (ws nip : float) (log : list message) :
  randwave_generate c_sin c_tan rand x c ws nip = Returns (log, x', c') ->
  generated x' = true /\ phase x' = phase x
  /\ Z.of_nat (length (wavetable x')) = wavetable_size x'.
Proof.
  intros H.
  destruct (generate_result c_sin c_tan rand x x' c c' ws nip log H)
    as ((Hs & Hnp) & Hx & _ & _).
  rewrite Hx. cbn [wavetable wavetable_size phase generated generated_object].
  split; [reflexivity|]. split; [reflexivity|].
  rewrite trig_interp_length by (rewrite repeat_length; lia).
  rewrite repeat_length. lia.
Qed.

(** X15 -- the first [randwave_dsp] of an object.  With [rand] returning
    values in [[0, RAND_MAX]]: on an object that has not been generated and
    a positive sample rate, [randwave_dsp] generates the default table
    without a diagnostic and puts [randwave_perform] on the chain.  The
    object then holds 2048 samples and 6 control points, the two end points
    and 4 interior points at increasing positions of [[1, 2046]] with
    amplitudes in [[-1, 1]], and is marked as generated; 2049 random numbers
    have been drawn. *)
Theorem dsp_generates_default_table :
  forall (c_sin c_tan : double -> double) (rand : nat -> Z),
  (forall c, 0 <= rand c <= RAND_MAX) ->
  forall (x : t_randwave) (c : nat) (s_sr : float),
  flt (of_int 0) s_sr = true -> generated x = false ->
  exists log x',
    randwave_dsp c_sin c_tan rand x c s_sr = Returns (log, x', (c + 2049)%nat, true)
    /\ ~ In ErrInvalidSampleCount log /\ ~ In ErrInvalidNumPoints log
    /\ generated x' = true
    /\ wavetable_size x' = 2048 /\ length (wavetable x') = 2048%nat
    /\ num_points x' = 6 /\ control_point_set 2048 4 (points x')
    /\ phase x' = phase x.
Proof.
  intros c_sin c_tan rand rand_range x c s_sr Hsr Hgen.
  destruct default_arguments as (Hws & Hbad & Hsize & Hnp).
  destruct (generate_control_points_at c_sin c_tan rand rand_range x c
              (of_int DEFAULT_WAVETABLE_SIZE) (of_int DEFAULT_NUM_INTERP_POINTS) 2048 4)
    as (log & x' & c' & H & Hn & Hset);
    [exact Hws | reflexivity | reflexivity | lia | lia |].
  destruct (generate_result c_sin c_tan rand x x' c c' _ _ log H) as (_ & Hx & Hc & Hlog).
  destruct (generate_marks c_sin c_tan rand x x' c c' _ _ log H) as (Hg & Hphase & Hlen).
  rewrite Hws, Hbad in Hlog. rewrite Hsize, Hnp in Hx, Hc.
  rewrite control_points_draws in Hc.
  assert (Hws' : wavetable_size x' = 2048) by (rewrite Hx; reflexivity).
  exists log, x'. unfold randwave_dsp. rewrite Hsr, Hgen, H. cbn [negb].
  replace (c + 2049)%nat with c' by (rewrite Hc; cbn; lia).
  split; [reflexivity|].
  split; [|split].
  - rewrite Hlog. cbn [app In]. intros [Hf|Hf]; [discriminate Hf|].
    apply in_app_iff in Hf. destruct Hf as [Hf|[Hf|[]]]; [|discriminate Hf].
    exact (not_in_post_points ErrInvalidSampleCount _ _ (fun t : False => t) Hf).
  - rewrite Hlog. cbn [app In]. intros [Hf|Hf]; [discriminate Hf|].
    apply in_app_iff in Hf. destruct Hf as [Hf|[Hf|[]]]; [|discriminate Hf].
    exact (not_in_post_points ErrInvalidNumPoints _ _ (fun t : False => t) Hf).
  - split; [exact Hg|]. split; [exact Hws'|]. split; [lia|].
    split; [exact Hn|]. split; [exact Hset | exact Hphase].
Qed.

Lemma dsp_generates_default_table_witness :
  (flt (of_int 0) (of_int 44100) = true /\ generated randwave_new = false)
  /\ exists log x',
       randwave_dsp sin_poly tan_poly lcg_rand randwave_new 0 (of_int 44100)
       = Returns (log, x', 2049%nat, true)
       /\ num_points x' = 6.
Proof.
  assert (Hsr : flt (of_int 0) (of_int 44100) = true) by reflexivity.
  assert (Hg : generated randwave_new = false) by reflexivity.
  split; [exact (conj Hsr Hg)|].
  destruct (dsp_generates_default_table sin_poly tan_poly lcg_rand lcg_rand_range
              randwave_new 0 (of_int 44100) Hsr Hg)
    as (log & x' & H & _ & _ & _ & _ & _ & Hn & _).
  exists log, x'. exact (conj H Hn).
Defined.

(** The three ways through [randwave_dsp], for any sample-rate test [b],
    any [generated] flag [gd] and any outcome [g] of the generation. *)
Lemma dsp_cases (b gd : bool) (g : outcome (list message * t_randwave * nat))
      (x x' : t_randwave) (c c' : nat) (log : list message) (added : bool) :
  (if b then
     if negb gd then
       match g with
       | Returns (log, x', c') => Returns (log, x', c', true)
       | Undefined => Undefined
       end
     else Returns ([], x, c, true)
   else Returns ([], x, c, false)) = Returns (log, x', c', added) ->
  added = b
  /\ (b = false \/ gd = true -> log = [] /\ x' = x /\ c' = c)
  /\ (b = true -> gd = false -> g = Returns (log, x', c')).
Proof.
  intros H. destruct b, gd; cbn [negb] in H.
  - injection H as <- <- <- <-. split; [reflexivity|].
    split; [intros _; repeat split | intros _ Hf; discriminate Hf].
  - destruct g as [[[log1 x1] c1]|]; [|discriminate H].
    injection H as <- <- <- <-. split; [reflexivity|].
    split; [intros [Hf|Hf]; discriminate Hf | intros _ _; reflexivity].
  - injection H as <- <- <- <-. split; [reflexivity|].
    split; [intros _; repeat split | intros Hf; discriminate Hf].
  - injection H as <- <- <- <-. split; [reflexivity|].
    split; [intros _; repeat split | intros Hf; discriminate Hf].
Qed.

Lemma dsp_on_generated (c_sin c_tan : double -> double) (rand : nat -> Z)
      (x : t_randwave) (c : nat) (s_sr : float) :
  generated x = true ->
  randwave_dsp c_sin c_tan rand x c s_sr = Returns ([], x, c, flt (of_int 0) s_sr).
Proof.
  intros Hg. unfold randwave_dsp. rewrite Hg. cbn [negb].
  destruct (flt (of_int 0) s_sr); reflexivity.
Qed.

(** X16 -- [randwave_dsp] generates at most once.  A call that returns
    puts [randwave_perform] on the chain exactly when the sample rate is
    positive; it changes nothing, posts nothing and draws no random number
    when the sample rate is not positive or the object is generated
    already.  After a call with a positive sample rate the object is marked
    as generated, so every later call leaves it as it is. *)
Theorem dsp_generates_once :
  forall (c_sin c_tan : double -> double) (rand : nat -> Z)
         (x x' : t_randwave) (c c' : nat) (s_sr : float)
         (log : list message) (added : bool),
  randwave_dsp c_sin c_tan rand x c s_sr = Returns (log, x', c', added) ->
  added = flt (of_int 0) s_sr
  /\ (added = false \/ generated x = true -> log = [] /\ x' = x /\ c' = c)
  /\ (added = true ->
      generated x' = true
      /\ forall s_sr',
         randwave_dsp c_sin c_tan rand x' c' s_sr'
         = Returns ([], x', c', flt (of_int 0) s_sr')).
Proof.
  intros c_sin c_tan rand x x' c c' s_sr log added H.
  destruct (dsp_cases (flt (of_int 0) s_sr) (generated x)
              (randwave_generate c_sin c_tan rand x c (of_int DEFAULT_WAVETABLE_SIZE)
                                 (of_int DEFAULT_NUM_INTERP_POINTS))
              x x' c c' log added H) as (Hadded & Hsame & Hgen).
  split; [exact Hadded|]. split.
  - intros [Hf|Hf]; apply Hsame; [left; congruence | right; exact Hf].
  - intros Ha.
    assert (Hg : generated x' = true).
    { destruct (generated x) eqn:Hx.
      - destruct (Hsame (or_intror eq_refl)) as (_ & -> & _). exact Hx.
      - exact (proj1 (generate_marks _ _ _ _ _ _ _ _ _ _
                        (Hgen ltac:(congruence) eq_refl))). }
    split; [exact Hg|]. intros s_sr'. apply dsp_on_generated, Hg.
Qed.

Lemma dsp_generates_once_witness :
  randwave_dsp sin_poly tan_poly lcg_rand example_object 7 (of_int 44100)
  = Returns ([], example_object, 7%nat, true)
  /\ forall s_sr',
     randwave_dsp sin_poly tan_poly lcg_rand example_object 7 s_sr'
     = Returns ([], example_object, 7%nat, flt (of_int 0) s_sr').
Proof.
  assert (H : randwave_dsp sin_poly tan_poly lcg_rand example_object 7 (of_int 44100)
              = Returns ([], example_object, 7%nat, true)) by reflexivity.
  split; [exact H|].
  exact (proj2 (proj2 (proj2 (dsp_generates_once sin_poly tan_poly lcg_rand
                                _ _ _ _ _ _ _ H)) eq_refl)).
Defined.
